(** * MagnusDownloader: a shallow embedding of [main.cpp]

    The program fetches an RSS feed, extracts the episodes of two series
    with a regular expression on the item titles, sorts each series by
    episode number, downloads every enclosure and tags the file with
    [id3v2].

    Layout:
    - [Cxx]      the parts of the C++ library the program relies on:
                 [std::stoi], [std::to_string], [std::regex_search] and
                 [std::sort] (the latter after GNU libstdc++ 12,
                 [bits/stl_algo.h] and [bits/stl_heap.h]);
    - [Pugi]     the document tree of pugixml and the accessors used;
    - [FeedText] a reader for the XML of the example feeds;
    - [Magnus]   [EpisodeInfo], [parseRssFeed], [setTrackNumber],
                 [downloadContent], [writeCallback] and [main], as
                 computations over the history of what the program wrote and
                 called;
    - the vocabulary of the statements and the data of the examples;
    - the properties: [std::sort] (permutation, order, idempotence), the
      parser, the downloader, the command line, the two series. *)

From Stdlib Require Import ZArith Lia Bool Ascii String DecimalString.
From stdpp Require Import base list sorting.

Local Open Scope Z_scope.

(** ** The C++ library *)

Module Cxx.

(** Exceptions of <stdexcept> and <filesystem> that can leave the program.
    [what] is the text libstdc++ gives them. *)
Inductive exception : Type :=
| invalid_argument (what : string)
| out_of_range (what : string)
| filesystem_error (what : string).

(** *** [std::stoi]

    libstdc++ implements [std::stoi] by [strtol] in base 10: white space is
    skipped, an optional sign is read, then the longest run of digits.  No
    digit at all raises [std::invalid_argument]; a value that does not fit
    an [int] raises [std::out_of_range]. *)

Definition INT_MAX : Z := 2147483647.
Definition INT_MIN : Z := -2147483648.

Definition isspace (c : ascii) : bool :=
  let n := nat_of_ascii c in
  (Nat.eqb n 32 || (Nat.leb 9 n && Nat.leb n 13))%bool.

Definition isdigit (c : ascii) : bool :=
  let n := nat_of_ascii c in (Nat.leb 48 n && Nat.leb n 57)%bool.

Definition digit_value (c : ascii) : Z := Z.of_nat (nat_of_ascii c) - 48.

Fixpoint skip_space (s : list ascii) : list ascii :=
  match s with
  | c :: s' => if isspace c then skip_space s' else s
  | [] => []
  end.

(** The value of the longest run of digits at the head of [s], read after
    the value [acc] of the digits already seen. *)
Fixpoint digits_value (acc : Z) (s : list ascii) : Z :=
  match s with
  | c :: s' => if isdigit c then digits_value (10 * acc + digit_value c) s' else acc
  | [] => acc
  end.

Definition starts_with_digit (s : list ascii) : bool :=
  match s with
  | c :: _ => isdigit c
  | [] => false
  end.

(** [strtol s] is [None] when no conversion is performed. *)
Definition strtol (s : list ascii) : option Z :=
  let s := skip_space s in
  let '(negative, s) :=
    match s with
    | "-"%char :: s' => (true, s')
    | "+"%char :: s' => (false, s')
    | _ => (false, s)
    end in
  if starts_with_digit s
  then Some (if negative : bool then - digits_value 0 s else digits_value 0 s)
  else None.

Definition stoi (str : string) : exception + Z :=
  match strtol (list_ascii_of_string str) with
  | None => inl (invalid_argument "stoi")
  | Some v =>
      if (INT_MIN <=? v) && (v <=? INT_MAX) then inr v
      else inl (out_of_range "stoi")
  end.

(** *** [std::to_string] on an [int] *)

Definition to_string (n : Z) : string := NilZero.string_of_int (Z.to_int n).

(** *** [std::regex] and [std::regex_search]

    The ECMAScript grammar, as far as patterns built from ordinary
    characters, [\d], [.], concatenation, alternation, the greedy
    quantifiers and capturing groups go.  A group carries its number (the
    rank of its opening parenthesis).  Matching is the backtracking search
    of the standard: leftmost start, alternatives in order, quantifiers
    greedy, an iteration of a quantifier that consumes nothing is
    rejected.  (The matcher of libstdc++ lets such an iteration pass once,
    which shows in the captures when a quantifier stands on a sub-pattern
    that can match the empty text.  The quantifiers of the patterns below
    stand on [\d] alone, whose iterations always consume a character, and
    there the two agree.) *)

Inductive regex_node : Type :=
| re_char (c : ascii)
| re_digit
| re_any
| re_seq (r1 r2 : regex_node)
| re_alt (r1 r2 : regex_node)
| re_star (r : regex_node)
| re_plus (r : regex_node)
| re_group (index : nat) (r : regex_node).

Record regex : Type := mk_regex {
  re_node : regex_node;
  re_icase : bool          (* std::regex::icase *)
}.

Definition tolower (c : ascii) : ascii :=
  let n := nat_of_ascii c in
  if (Nat.leb 65 n && Nat.leb n 90)%bool then ascii_of_nat (n + 32) else c.

Definition translate (icase : bool) (c : ascii) : ascii :=
  if icase then tolower c else c.

(** The sub-matches found so far, most recent first. *)
Definition sub_matches : Type := list (nat * list ascii).

Fixpoint sub_match (index : nat) (m : sub_matches) : option (list ascii) :=
  match m with
  | (i, s) :: m' => if Nat.eqb i index then Some s else sub_match index m'
  | [] => None
  end.

Section Matcher.
Variable icase : bool.

(** [exec r s m k]: match [r] at the head of [s], then continue with [k]
    on what is left; [None] when every way of matching fails. *)
Fixpoint exec (r : regex_node) (s : list ascii) (m : sub_matches)
    (k : list ascii -> sub_matches -> option sub_matches) {struct r}
    : option sub_matches :=
  match r with
  | re_char c =>
      match s with
      | c' :: s' =>
          if Ascii.eqb (translate icase c') (translate icase c) then k s' m else None
      | [] => None
      end
  | re_digit =>
      match s with
      | c' :: s' => if isdigit c' then k s' m else None
      | [] => None
      end
  | re_any =>
      match s with
      | c' :: s' =>
          if (Ascii.eqb c' "010" || Ascii.eqb c' "013")%bool then None else k s' m
      | [] => None
      end
  | re_seq r1 r2 => exec r1 s m (fun s' m' => exec r2 s' m' k)
  | re_alt r1 r2 =>
      match exec r1 s m k with
      | Some res => Some res
      | None => exec r2 s m k
      end
  | re_star r' =>
      (fix iterate (fuel : nat) (s : list ascii) (m : sub_matches) {struct fuel} :=
         match fuel with
         | O => k s m
         | S fuel' =>
             match exec r' s m (fun s' m' =>
                      if Nat.ltb (length s') (length s)
                      then iterate fuel' s' m' else None) with
             | Some res => Some res
             | None => k s m
             end
         end) (length s) s m
  | re_plus r' =>
      exec r' s m (fun s1 m1 =>
        (fix iterate (fuel : nat) (s : list ascii) (m : sub_matches) {struct fuel} :=
           match fuel with
           | O => k s m
           | S fuel' =>
               match exec r' s m (fun s' m' =>
                        if Nat.ltb (length s') (length s)
                        then iterate fuel' s' m' else None) with
               | Some res => Some res
               | None => k s m
               end
           end) (length s1) s1 m1)
  | re_group index r' =>
      exec r' s m (fun s' m' =>
        k s' ((index, take (length s - length s') s) :: m'))
  end.

Fixpoint search (r : regex_node) (s : list ascii) : option sub_matches :=
  match exec r s [] (fun _ m => Some m) with
  | Some m => Some m
  | None =>
      match s with
      | _ :: s' => search r s'
      | [] => None
      end
  end.
End Matcher.

(** [std::smatch] after a successful search; [str i] is [match[i].str()],
    empty for a group that took no part in the match. *)
Record smatch : Type := mk_smatch { sm_subs : sub_matches }.

Definition str (m : smatch) (i : nat) : string :=
  match sub_match i (sm_subs m) with
  | Some s => string_of_list_ascii s
  | None => EmptyString
  end.

Definition regex_search (s : string) (e : regex) : option smatch :=
  option_map mk_smatch (search (re_icase e) (re_node e) (list_ascii_of_string s)).

(** *** [std::sort]

    GNU libstdc++ 12, [bits/stl_algo.h] and [bits/stl_heap.h]: introsort.
    Ranges longer than [_S_threshold] are partitioned around a median of
    three until the depth limit is reached (then the range is heap-sorted),
    and one insertion sort finishes the work.  The vector is a list, an
    iterator its offset from [begin()].

    The library's unguarded loops rely on a sentinel inside the range; a
    loop of the model that finds no element at an offset stops there. *)

Section Sort.
Local Open Scope nat_scope.
Context {T : Type}.
Variable comp : T -> T -> bool.

Definition _S_threshold : nat := 16.

(** [comp(i, j)] on two iterators *)
Definition comp_iter (v : list T) (i j : nat) : bool :=
  match v !! i, v !! j with
  | Some x, Some y => comp x y
  | _, _ => false
  end.

Definition iter_swap (i j : nat) (v : list T) : list T :=
  match v !! i, v !! j with
  | Some x, Some y => <[j := x]> (<[i := y]> v)
  | _, _ => v
  end.

Definition move_median_to_first (result a b c : nat) (v : list T) : list T :=
  if comp_iter v a b then
    if comp_iter v b c then iter_swap result b v
    else if comp_iter v a c then iter_swap result c v
    else iter_swap result a v
  else if comp_iter v a c then iter_swap result a v
  else if comp_iter v b c then iter_swap result c v
  else iter_swap result b v.

(** [while (comp(first, pivot)) ++first;] *)
Fixpoint advance_first (fuel first pivot : nat) (v : list T) : nat :=
  match fuel with
  | S fuel' =>
      if comp_iter v first pivot then advance_first fuel' (S first) pivot v
      else first
  | O => first
  end.

(** [while (comp(pivot, last)) --last;] *)
Fixpoint retreat_last (fuel last pivot : nat) (v : list T) : nat :=
  match fuel with
  | S fuel' =>
      if comp_iter v pivot last then retreat_last fuel' (pred last) pivot v
      else last
  | O => last
  end.

Fixpoint unguarded_partition (fuel first last pivot : nat) (v : list T)
    : nat * list T :=
  match fuel with
  | S fuel' =>
      let first := advance_first (length v) first pivot v in
      let last := pred last in
      let last := retreat_last (length v) last pivot v in
      if first <? last
      then unguarded_partition fuel' (S first) last pivot (iter_swap first last v)
      else (first, v)
  | O => (first, v)
  end.

Definition unguarded_partition_pivot (first last : nat) (v : list T)
    : nat * list T :=
  let mid := first + (last - first) / 2 in
  let v := move_median_to_first first (first + 1) mid (last - 1) v in
  unguarded_partition (length v) (first + 1) last first v.

(** The loop of [__unguarded_linear_insert]: [val] travels down from
    [last] while it is smaller than the element before it. *)
Fixpoint linear_insert_loop (val : T) (last : nat) (v : list T) : list T :=
  match last with
  | S next =>
      match v !! next with
      | Some x =>
          if comp val x then linear_insert_loop val next (<[last := x]> v)
          else <[last := val]> v
      | None => <[last := val]> v
      end
  | O => <[last := val]> v
  end.

Definition unguarded_linear_insert (last : nat) (v : list T) : list T :=
  match v !! last with
  | Some val => linear_insert_loop val last v
  | None => v
  end.

(** [val = *i; move_backward(first, i, i + 1); *first = val;] *)
Definition move_to_first (first i : nat) (v : list T) : list T :=
  match v !! i with
  | Some val =>
      take first v ++ val :: take (i - first) (drop first v) ++ drop (S i) v
  | None => v
  end.

Definition insertion_sort (first last : nat) (v : list T) : list T :=
  if first =? last then v
  else
    fold_left (fun v i =>
                 if comp_iter v i first then move_to_first first i v
                 else unguarded_linear_insert i v)
              (seq (first + 1) (last - (first + 1))) v.

Definition unguarded_insertion_sort (first last : nat) (v : list T) : list T :=
  fold_left (fun v i => unguarded_linear_insert i v) (seq first (last - first)) v.

Definition final_insertion_sort (first last : nat) (v : list T) : list T :=
  if _S_threshold <? last - first then
    unguarded_insertion_sort (first + _S_threshold) last
      (insertion_sort first (first + _S_threshold) v)
  else insertion_sort first last v.

(** [bits/stl_heap.h] *)

Fixpoint push_heap_loop (fuel first holeIndex topIndex : nat) (value : T)
    (v : list T) : list T :=
  let parent := (holeIndex - 1) / 2 in
  match fuel, v !! (first + parent) with
  | S fuel', Some p =>
      if (topIndex <? holeIndex) && comp p value
      then push_heap_loop fuel' first parent topIndex value
             (<[first + holeIndex := p]> v)
      else <[first + holeIndex := value]> v
  | _, _ => <[first + holeIndex := value]> v
  end.

Definition push_heap (first holeIndex topIndex : nat) (value : T) (v : list T)
    : list T :=
  push_heap_loop (S holeIndex) first holeIndex topIndex value v.

(** The first loop of [__adjust_heap]; the result is
    [(holeIndex, secondChild, v)]. *)
Fixpoint adjust_heap_loop (fuel first holeIndex secondChild len : nat)
    (v : list T) : nat * nat * list T :=
  match fuel with
  | S fuel' =>
      if secondChild <? (len - 1) / 2 then
        let secondChild := 2 * (secondChild + 1) in
        let secondChild :=
          if comp_iter v (first + secondChild) (first + (secondChild - 1))
          then secondChild - 1 else secondChild in
        match v !! (first + secondChild) with
        | Some x =>
            adjust_heap_loop fuel' first secondChild secondChild len
              (<[first + holeIndex := x]> v)
        | None => (holeIndex, secondChild, v)
        end
      else (holeIndex, secondChild, v)
  | O => (holeIndex, secondChild, v)
  end.

Definition adjust_heap (first holeIndex len : nat) (value : T) (v : list T)
    : list T :=
  let topIndex := holeIndex in
  let '(holeIndex, secondChild, v) :=
    adjust_heap_loop len first holeIndex holeIndex len v in
  let '(holeIndex, v) :=
    if Nat.even len && (secondChild =? (len - 2) / 2) then
      let secondChild := 2 * (secondChild + 1) in
      match v !! (first + (secondChild - 1)) with
      | Some x => (secondChild - 1, <[first + holeIndex := x]> v)
      | None => (holeIndex, v)
      end
    else (holeIndex, v) in
  push_heap first holeIndex topIndex value v.

Definition pop_heap (first last result : nat) (v : list T) : list T :=
  match v !! result, v !! first with
  | Some value, Some top =>
      adjust_heap first 0 (last - first) value (<[result := top]> v)
  | _, _ => v
  end.

Fixpoint make_heap_loop (parent first len : nat) (v : list T) : list T :=
  let v :=
    match v !! (first + parent) with
    | Some value => adjust_heap first parent len value v
    | None => v
    end in
  match parent with
  | O => v
  | S parent' => make_heap_loop parent' first len v
  end.

Definition make_heap (first last : nat) (v : list T) : list T :=
  if last - first <? 2 then v
  else
    let len := last - first in
    make_heap_loop ((len - 2) / 2) first len v.

Fixpoint sort_heap_loop (fuel first last : nat) (v : list T) : list T :=
  match fuel with
  | S fuel' =>
      if 1 <? last - first
      then sort_heap_loop fuel' first (last - 1)
             (pop_heap first (last - 1) (last - 1) v)
      else v
  | O => v
  end.

Definition sort_heap (first last : nat) (v : list T) : list T :=
  sort_heap_loop (last - first) first last v.

Definition heap_select (first middle last : nat) (v : list T) : list T :=
  fold_left (fun v i =>
               if comp_iter v i first then pop_heap first middle i v else v)
            (seq middle (last - middle)) (make_heap first middle v).

Definition partial_sort (first middle last : nat) (v : list T) : list T :=
  sort_heap first middle (heap_select first middle last v).

(** The [while] loop of [__introsort_loop] goes on with the depth limit
    its recursive call was given, so both are calls at [depth_limit - 1]. *)
Fixpoint introsort_loop (depth_limit first last : nat) (v : list T) : list T :=
  if _S_threshold <? last - first then
    match depth_limit with
    | O => partial_sort first last last v
    | S depth_limit' =>
        let '(cut, v) := unguarded_partition_pivot first last v in
        introsort_loop depth_limit' first cut
          (introsort_loop depth_limit' cut last v)
    end
  else v.

(** [std::sort(v.begin(), v.end(), comp)] *)
Definition sort (v : list T) : list T :=
  let first := 0 in
  let last := length v in
  if first =? last then v
  else
    final_insertion_sort first last
      (introsort_loop (Nat.log2 (last - first) * 2) first last v).
End Sort.

(** Patterns are written as syntax trees: [re_concat (re_string "ab") r]
    is the pattern [abr]. *)
Definition re_string (s : string) : list regex_node :=
  map re_char (list_ascii_of_string s).

Fixpoint re_concat (rs : list regex_node) (last : regex_node) : regex_node :=
  match rs with
  | [] => last
  | r :: rs' => re_seq r (re_concat rs' last)
  end.

End Cxx.

Import Cxx.

(** ** pugixml

    The document tree that [xml_document::load_string] builds with the
    default options (elements with their attributes, character data and
    CDATA sections; comments, processing instructions and white-space-only
    character data are not kept), and the accessors [parseRssFeed] calls.
    A node handle of pugixml may be null, and every accessor of a null
    handle answers with a null handle or the empty string: handles are
    [option]s. *)

Module Pugi.

#[warnings="-register-all"] Inductive xml_node_struct : Type :=
| node_element (name : string) (attributes : list (string * string))
               (children : list xml_node_struct)
| node_pcdata (value : string)
| node_cdata (value : string).

Definition xml_node : Type := option xml_node_struct.
Definition xml_attribute : Type := option (string * string).

(** The children of the document node. *)
Definition xml_document : Type := list xml_node_struct.

(** [xml_parse_result]: its conversion to [bool] is [true] for
    [status_ok]; otherwise [description()] explains the failure. *)
Inductive xml_parse_result : Type :=
| status_ok (doc : xml_document)
| status_error (description : string).

Definition has_name (name_ : string) (n : xml_node_struct) : bool :=
  match n with
  | node_element name _ _ => String.eqb name_ name
  | _ => false
  end.

Definition is_text_node (n : xml_node_struct) : bool :=
  match n with
  | node_element _ _ _ => false
  | _ => true
  end.

Definition children_of (n : xml_node_struct) : list xml_node_struct :=
  match n with
  | node_element _ _ children => children
  | _ => []
  end.

(** [xml_node::child(name)]: the first child with that name. *)
Definition child (n : xml_node) (name_ : string) : xml_node :=
  match n with
  | Some n => List.find (has_name name_) (children_of n)
  | None => None
  end.

(** [xml_node::text().get()]: the value of the first character-data child
    (or of the node itself when it is character data). *)
Definition text_get (n : xml_node) : string :=
  match n with
  | Some (node_element _ _ children) =>
      match List.find is_text_node children with
      | Some (node_pcdata v) | Some (node_cdata v) => v
      | _ => EmptyString
      end
  | Some (node_pcdata v) | Some (node_cdata v) => v
  | None => EmptyString
  end.

(** [xml_node::attribute(name)]: the first attribute with that name. *)
Definition attribute (n : xml_node) (name_ : string) : xml_attribute :=
  match n with
  | Some (node_element _ attributes _) =>
      List.find (fun a => String.eqb name_ (fst a)) attributes
  | _ => None
  end.

(** [xml_attribute::value()] *)
Definition value (a : xml_attribute) : string :=
  match a with
  | Some (_, v) => v
  | None => EmptyString
  end.

(** [select_nodes] on an absolute location path of child steps with name
    tests, [/n1/n2/...]: the path is given by its names.  The nodes come
    in document order. *)
Fixpoint select_steps (steps : list string) (context : list xml_node_struct)
    : list xml_node_struct :=
  match steps with
  | [] => context
  | name_ :: steps' =>
      match steps' with
      | [] => List.filter (has_name name_) context
      | _ => select_steps steps'
               (flat_map children_of (List.filter (has_name name_) context))
      end
  end.

Definition select_nodes (doc : xml_document) (path : list string)
    : list xml_node_struct :=
  select_steps path doc.

End Pugi.

Import Pugi.

(** ** Feed texts

    [load_string] itself is a parameter of the program below.  To run the
    program on concrete feed texts, [read_document] reads the part of XML
    such feeds are written in: elements, quoted attributes and
    character data, without entity references, comments, CDATA sections or
    processing instructions.  The failure descriptions are pugixml's. *)

Module FeedText.

Inductive read_result (A : Type) : Type :=
| read_ok (a : A) (rest : list ascii)
| read_fail (description : string).
Arguments read_ok {A}.
Arguments read_fail {A}.

Definition is_name_char (c : ascii) : bool :=
  negb (isspace c || Ascii.eqb c "/" || Ascii.eqb c ">" || Ascii.eqb c "="
        || Ascii.eqb c "<" || Ascii.eqb c "034" || Ascii.eqb c "039").

Fixpoint span (p : ascii -> bool) (s : list ascii) : list ascii * list ascii :=
  match s with
  | c :: s' => if p c then let '(a, b) := span p s' in (c :: a, b) else ([], s)
  | [] => ([], [])
  end.

Definition add_node (n : xml_node_struct) (r : read_result (list xml_node_struct))
    : read_result (list xml_node_struct) :=
  match r with
  | read_ok nodes rest => read_ok (n :: nodes) rest
  | read_fail d => read_fail d
  end.

Definition is_quote (c : ascii) : bool :=
  (Ascii.eqb c "034" || Ascii.eqb c "039")%bool.

Fixpoint read_attributes (fuel : nat) (s : list ascii)
    : read_result (list (string * string)) :=
  match fuel with
  | O => read_fail "Error parsing element attribute"
  | S fuel' =>
      let s0 := skip_space s in
      match s0 with
      | "/"%char :: _ => read_ok [] s0
      | ">"%char :: _ => read_ok [] s0
      | _ =>
          match span is_name_char s0 with
          | (c :: name, "="%char :: q :: s1) =>
              if is_quote q then
                match span (fun c => negb (Ascii.eqb c q)) s1 with
                | (v, _ :: s2) =>
                    match read_attributes fuel' s2 with
                    | read_ok attributes rest =>
                        read_ok ((string_of_list_ascii (c :: name),
                                  string_of_list_ascii v) :: attributes) rest
                    | read_fail d => read_fail d
                    end
                | _ => read_fail "Error parsing element attribute"
                end
              else read_fail "Error parsing element attribute"
          | _ => read_fail "Error parsing element attribute"
          end
      end
  end.

Fixpoint read_nodes (fuel : nat) (s : list ascii) : read_result (list xml_node_struct) :=
  match fuel with
  | O => read_fail "Could not determine tag type"
  | S fuel' =>
      match s with
      | [] => read_ok [] []
      | "<"%char :: "/"%char :: _ => read_ok [] s
      | "<"%char :: s1 =>
          match span is_name_char s1 with
          | ([], _) => read_fail "Could not determine tag type"
          | (name, s2) =>
              match read_attributes fuel' s2 with
              | read_ok attributes ("/"%char :: ">"%char :: s3) =>
                  add_node (node_element (string_of_list_ascii name) attributes [])
                           (read_nodes fuel' s3)
              | read_ok attributes (">"%char :: s3) =>
                  match read_nodes fuel' s3 with
                  | read_ok children ("<"%char :: "/"%char :: s4) =>
                      match span is_name_char s4 with
                      | (name', s5) =>
                          match skip_space s5 with
                          | ">"%char :: s6 =>
                              if String.eqb (string_of_list_ascii name)
                                            (string_of_list_ascii name')
                              then add_node
                                     (node_element (string_of_list_ascii name)
                                        attributes children)
                                     (read_nodes fuel' s6)
                              else read_fail "Start-end tags mismatch"
                          | _ => read_fail "Error parsing end element tag"
                          end
                      end
                  | read_ok _ _ => read_fail "Start-end tags mismatch"
                  | read_fail d => read_fail d
                  end
              | read_ok _ _ => read_fail "Error parsing start element tag"
              | read_fail d => read_fail d
              end
          end
      | _ =>
          match span (fun c => negb (Ascii.eqb c "<")) s with
          | (text, s1) =>
              if forallb isspace text then read_nodes fuel' s1
              else add_node (node_pcdata (string_of_list_ascii text))
                            (read_nodes fuel' s1)
          end
      end
  end.

(** Character data at the level of the document is dropped, and a
    document without any element is refused. *)
Definition read_document (contents : string) : xml_parse_result :=
  let s := list_ascii_of_string contents in
  match read_nodes (S (length s)) s with
  | read_ok nodes [] =>
      match List.filter (fun n => negb (is_text_node n)) nodes with
      | [] => status_error "No document element found"
      | doc => status_ok doc
      end
  | read_ok _ (_ :: _) => status_error "Start-end tags mismatch"
  | read_fail d => status_error d
  end.

End FeedText.

(** ** The program *)

Module Magnus.

(** Struct to store episode information. *)
Record EpisodeInfo : Type := mk_EpisodeInfo {
  name : string;           (* Episode title. *)
  link : string;           (* Episode link. *)
  episodeNumber : Z        (* Episode number. *)
}.

(** *** What the program does to the world

    The run of the program is recorded as the list of its events, oldest
    first: the lines it writes, and its calls of libcurl, of the C library
    and of [std::filesystem], each with the answer it got. *)

Definition CURLcode : Type := Z.
Definition CURLE_OK : CURLcode := 0.

(** Where libcurl delivers the body: to [writeCallback] or, by its default
    write function, to the open [FILE]. *)
Inductive write_target : Type :=
| to_callback
| to_file (path : string).

Inductive event : Type :=
| cout (line : string)                    (* std::cout << ... << std::endl *)
| cerr (line : string)                    (* std::cerr << ... << std::endl *)
| create_directories (path : string) (result : exception + bool)
| curl_easy_init (handle : bool)
| curl_easy_perform (url : string) (target : write_target)
                    (chunks : list string) (res : CURLcode)
| curl_easy_cleanup
| fopen (path mode : string) (file : bool)
| fclose (path : string)
| system (command : string) (status : Z).

(** The world answers each call, knowing everything that happened before.
    [std::filesystem::create_directories] tells whether a directory was
    created, or throws. *)
Record World : Type := mk_World {
  answer_create_directories : list event -> string -> exception + bool;
  answer_curl_easy_init : list event -> bool;
  answer_curl_easy_perform : list event -> string -> list string * CURLcode;
  answer_fopen : list event -> string -> bool;
  answer_system : list event -> string -> Z;
  curl_easy_strerror : CURLcode -> string
}.

(** A computation reads the history, extends it, and returns a value or
    leaves by an exception. *)
Definition prog (A : Type) : Type := list event -> (exception + A) * list event.

#[export] Instance prog_ret : MRet prog := fun A a h => (inr a, h).
#[export] Instance prog_bind : MBind prog := fun A B f c h =>
  match c h with
  | (inr a, h') => f a h'
  | (inl e, h') => (inl e, h')
  end.

Definition throw {A : Type} (e : exception) : prog A := fun h => (inl e, h).
Definition emit (e : event) : prog unit := fun h => (inr tt, h ++ [e]).
Definition call {A : Type} (answer : list event -> A) (e : A -> event) : prog A :=
  fun h => (inr (answer h), h ++ [e (answer h)]).

Fixpoint for_each {A : Type} (l : list A) (body : A -> prog unit) : prog unit :=
  match l with
  | [] => mret tt
  | x :: l' => body x ;; for_each l' body
  end.

Definition dquote : string := String "034" EmptyString.

Section Program.
(** [pugi::xml_document::load_string] *)
Variable load_string : string -> xml_parse_result.
Variable world : World.

Local Open Scope string_scope.

(** The body of the loop of [parseRssFeed] over the selected items. *)
Definition parse_item (pattern : regex) (item : xml_node_struct)
    (episodes : list EpisodeInfo) : prog (list EpisodeInfo) :=
  let name_ := text_get (child (Some item) "title") in
  let link_ := value (attribute (child (Some item) "enclosure") "url") in
  number ←
    match regex_search name_ pattern with
    | Some match_ =>
        match stoi (str match_ 1) with
        | inr n => mret n
        | inl e => throw e
        end
    | None => mret (-1)%Z
    end;
  if (number =? -1)%Z then mret episodes
  else mret (episodes ++ [mk_EpisodeInfo name_ link_ number])%list.

Fixpoint parse_items (pattern : regex) (items : list xml_node_struct)
    (episodes : list EpisodeInfo) : prog (list EpisodeInfo) :=
  match items with
  | [] => mret episodes
  | item :: items' =>
      episodes' ← parse_item pattern item episodes;
      parse_items pattern items' episodes'
  end.

(** Parses the RSS feed XML data using a regex pattern.  The vector
    [episodes] is passed by reference: the result is its new contents. *)
Definition parseRssFeed (pattern : regex) (xmlData : string)
    (episodes : list EpisodeInfo) : prog (list EpisodeInfo) :=
  match load_string xmlData with
  | status_error description =>
      emit (cerr ("Error parsing XML: " ++ description));;
      mret episodes
  | status_ok doc =>
      parse_items pattern (select_nodes doc ["rss"; "channel"; "item"]) episodes
  end.

(** Sets the track number of an episode in the MP3 file using id3v2. *)
Definition setTrackNumber (filePath : string) (episode : EpisodeInfo) : prog unit :=
  let command :=
    "id3v2 --track " ++ to_string (episodeNumber episode)
    ++ " --song " ++ dquote ++ name episode ++ dquote
    ++ " " ++ dquote ++ filePath ++ dquote in
  result ← call (fun h => answer_system world h command) (system command);
  if negb (result =? 0)%Z then emit (cerr "Error setting track number.")
  else emit (cout "Track number set successfully.").

(** Downloads the content of an episode using libcurl. *)
Definition downloadContent (episode : EpisodeInfo) : prog unit :=
  curl ← call (answer_curl_easy_init world) curl_easy_init;
  if negb curl then emit (cerr "Error initializing curl for download.")
  else
    let path := "Downloads/" ++ name episode ++ ".mp3" in
    file ← call (fun h => answer_fopen world h path) (fopen path "wb");
    if negb file then
      emit (cerr "Error opening file for writing.");;
      emit curl_easy_cleanup
    else
      '(chunks, res) ←
        call (fun h => answer_curl_easy_perform world h (link episode))
             (fun a => curl_easy_perform (link episode) (to_file path) (fst a) (snd a));
      (if negb (res =? CURLE_OK)%Z then
         emit (cerr ("curl_easy_perform() failed for download: "
                     ++ curl_easy_strerror world res))
       else mret tt);;
      emit curl_easy_cleanup;;
      emit (fclose path);;
      setTrackNumber ("Downloads/" ++ name episode ++ ".mp3") episode.

(** Callback function to write downloaded data to a string: the new
    contents of [output] and the total size of the written data. *)
Definition writeCallback (contents : string) (output : string) : string * nat :=
  (output ++ contents, String.length contents).

(** Display and download the episodes. *)
Definition display_and_download (episodes : list EpisodeInfo) : prog unit :=
  for_each episodes (fun episode =>
    emit (cout ("Title: " ++ name episode));;
    emit (cout ("Link: " ++ link episode));;
    emit (cout ("Episode Number: " ++ to_string (episodeNumber episode)));;
    downloadContent episode;;
    emit (cout "----------------------")).

Definition by_episodeNumber (a b : EpisodeInfo) : bool :=
  (episodeNumber a <? episodeNumber b)%Z.

(** [std::regex pattern("MAG (\\d+)", std::regex::icase)] *)
Definition pattern : regex :=
  mk_regex (re_concat (re_string "MAG ") (re_group 1 (re_plus re_digit))) true.

(** [std::regex pattern2("The Magnus Protocol (\\d+)", std::regex::icase)] *)
Definition pattern2 : regex :=
  mk_regex (re_concat (re_string "The Magnus Protocol ")
                      (re_group 1 (re_plus re_digit))) true.

(** [argv] holds the program name and the arguments; [argv[argc]] is a
    null pointer.  The result is the exit status. *)
Definition main (argv : list string) : prog Z :=
  match argv !! 1%nat with
  | None =>
      emit (cerr "Add your patreon URL");;
      mret 1%Z
  | Some url =>
      emit (cout url);;
      created ← call (fun h => answer_create_directories world h "Downloads")
                     (create_directories "Downloads");
      match created with
      | inr _ => mret tt
      | inl e => throw e
      end;;
      curl ← call (answer_curl_easy_init world) curl_easy_init;
      if negb curl then
        emit (cerr "Error initializing curl.");;
        mret 1%Z
      else
        '(chunks, res) ←
          call (fun h => answer_curl_easy_perform world h url)
               (fun a => curl_easy_perform url to_callback (fst a) (snd a));
        let responseData :=
          fold_left (fun output contents => fst (writeCallback contents output))
                    chunks EmptyString in
        if negb (res =? CURLE_OK)%Z then
          emit (cerr ("curl_easy_perform() failed: " ++ curl_easy_strerror world res));;
          emit curl_easy_cleanup;;
          mret 1%Z
        else
          emit curl_easy_cleanup;;
          episodes ← parseRssFeed pattern responseData [];
          let episodes := sort by_episodeNumber episodes in
          display_and_download episodes;;
          episodes2 ← parseRssFeed pattern2 responseData [];
          let episodes2 := sort by_episodeNumber episodes2 in
          display_and_download episodes2;;
          mret 0%Z
  end.
End Program.

End Magnus.

Import Magnus.

(** ** Vocabulary of the statements *)

(** What [parseRssFeed] reads from an item. *)
Definition item_name (item : xml_node_struct) : string :=
  text_get (child (Some item) "title").

Definition item_link (item : xml_node_struct) : string :=
  value (attribute (child (Some item) "enclosure") "url").

(** The items of a feed: [doc.select_nodes("/rss/channel/item")]. *)
Definition items_of (doc : xml_document) : list xml_node_struct :=
  select_nodes doc ["rss"; "channel"; "item"]%string.

(** The title of the item matches the pattern. *)
Definition matches (pattern : regex) (item : xml_node_struct) : bool :=
  match regex_search (item_name item) pattern with
  | Some _ => true
  | None => false
  end.

(** The episode an item stands for: its title matches and the first
    capture is converted to a number other than the sentinel [-1]. *)
Definition episode_of (pattern : regex) (item : xml_node_struct)
    : option EpisodeInfo :=
  match regex_search (item_name item) pattern with
  | Some m =>
      match stoi (str m 1) with
      | inr n =>
          if (n =? -1)%Z then None
          else Some (mk_EpisodeInfo (item_name item) (item_link item) n)
      | inl _ => None
      end
  | None => None
  end.

(** The records are in ascending order of episode number: every record is
    followed by one whose number is not smaller. *)
Definition ascending (episodes : list EpisodeInfo) : Prop :=
  forall (i : nat) (a b : EpisodeInfo),
    episodes !! i = Some a -> episodes !! S i = Some b ->
    (episodeNumber a <= episodeNumber b)%Z.

(** A decimal numeral that [std::stoi] accepts: digits only, at least one,
    with a value that fits an [int]. *)
Definition numeral (ds : string) : Prop :=
  ds <> EmptyString
  /\ Forall (fun c => isdigit c = true) (list_ascii_of_string ds)
  /\ (digits_value 0 (list_ascii_of_string ds) <= INT_MAX)%Z.

(** The capital of a small letter; every other character is left alone. *)
Definition capital (c : ascii) : ascii :=
  let n := nat_of_ascii c in
  if (Nat.leb 97 n && Nat.leb n 122)%bool then ascii_of_nat (n - 32) else c.

(** [p] and [q] are the same text up to the case of the letters. *)
Definition same_ignoring_case (p q : list ascii) : Prop :=
  map capital p = map capital q.

(** [title] carries the name of [series]: somewhere in it stand the name
    and a space, in any letter case, and then a digit
    ([MAG 12 - First Aid], [mag 7], [Rerun: MAG 3]). *)
Definition carries (series title : string) : Prop :=
  exists (pre p : list ascii) (d : ascii) (rest : list ascii),
    list_ascii_of_string title = (pre ++ p ++ d :: rest)%list
    /\ same_ignoring_case p (list_ascii_of_string series ++ [" "%char])%list
    /\ isdigit d = true.

(** [title] names the episode [number] of [series]: after the name and
    the space comes a run of digits that no digit follows, and [number] is
    the value of the run. *)
Definition names_episode (series title : string) (number : Z) : Prop :=
  exists pre p ds rest : list ascii,
    list_ascii_of_string title = (pre ++ p ++ ds ++ rest)%list
    /\ same_ignoring_case p (list_ascii_of_string series ++ [" "%char])%list
    /\ ds <> []
    /\ Forall (fun c => isdigit c = true) ds
    /\ starts_with_digit rest = false
    /\ number = digits_value 0 ds.

(** The pattern [main] searches the titles of a series with. *)
Definition pattern_of (series : string) (pattern_ : regex) : Prop :=
  (series = "MAG"%string /\ pattern_ = pattern)
  \/ (series = "The Magnus Protocol"%string /\ pattern_ = pattern2).

(** One step of the loop of [__insertion_sort] when [first] is [begin()]. *)
Definition insertion_step {T : Type} (comp : T -> T -> bool) (v : list T) (i : nat)
    : list T :=
  if comp_iter comp v i 0 then move_to_first 0 i v
  else unguarded_linear_insert comp i v.

(** [ordered comp a b]: [b] is not smaller than [a]. *)
Definition ordered {T : Type} (comp : T -> T -> bool) (a b : T) : Prop :=
  comp b a = false.

(** [std::stoi] converts the first capture of the match, if the title of
    the item matches at all. *)
Definition converts (pattern : regex) (item : xml_node_struct) : bool :=
  match regex_search (item_name item) pattern with
  | Some m =>
      match stoi (str m 1) with
      | inr _ => true
      | inl _ => false
      end
  | None => true
  end.

(** The file an episode is saved to, the command line [setTrackNumber]
    hands to [std::system] for it, and the line that reports the exit status
    of the command. *)
Definition destination (episode : EpisodeInfo) : string :=
  ("Downloads/" ++ name episode ++ ".mp3")%string.

Definition id3v2_command (filePath : string) (episode : EpisodeInfo) : string :=
  ("id3v2 --track " ++ to_string (episodeNumber episode)
   ++ " --song " ++ dquote ++ name episode ++ dquote
   ++ " " ++ dquote ++ filePath ++ dquote)%string.

Definition tagging_line (status : Z) : event :=
  if (status =? 0)%Z then cout "Track number set successfully."
  else cerr "Error setting track number.".

(** Counting the events of a kind: curl handles obtained and released,
    files opened and closed. *)
Definition count (p : event -> bool) (l : list event) : nat :=
  length (List.filter p l).

Definition takes_handle (e : event) : bool :=
  match e with curl_easy_init true => true | _ => false end.

Definition releases_handle (e : event) : bool :=
  match e with curl_easy_cleanup => true | _ => false end.

Definition opens_file (e : event) : bool :=
  match e with fopen _ _ true => true | _ => false end.

Definition closes_file (e : event) : bool :=
  match e with fclose _ => true | _ => false end.

Definition balanced (l : list event) : Prop :=
  count takes_handle l = count releases_handle l
  /\ count opens_file l = count closes_file l.

(** A download is attempted: [curl_easy_init] is called. *)
Definition attempts (e : event) : bool :=
  match e with curl_easy_init _ => true | _ => false end.

(** A computation that only adds events to the history, and takes and
    releases resources in equal numbers. *)
Definition adds_balanced {A : Type} (c : prog A) : Prop :=
  forall h, exists added, (c h).2 = (h ++ added)%list /\ balanced added.

(** The event belongs to the download of an episode or to its tagging: a
    file is opened for writing, or a command is run. *)
Definition writes_or_tags (e : event) : bool :=
  match e with fopen _ _ _ | system _ _ => true | _ => false end.

(** The [Title: ] lines among the events. *)
Definition title_line (e : event) : option string :=
  match e with
  | cout line => if String.prefix "Title: " line then Some line else None
  | _ => None
  end.

(** ** Feeds, episodes and worlds of the examples *)

Local Open Scope string_scope.

(** A feed with two episodes of [MAG] and a trailer. *)
Definition feed_of_three : string :=
  "<rss version='2.0'><channel><title>Rusty Quill</title>
   <item><title>MAG 12 - First Aid</title><enclosure url='http://cdn/12.mp3' type='audio/mpeg'/></item>
   <item><title>Trailer</title><enclosure url='http://cdn/t.mp3'/></item>
   <item><title>mag 7</title><enclosure url='http://cdn/7.mp3'/></item>
   </channel></rss>".

(** A world without network: every transfer fails with
    [CURLE_COULDNT_RESOLVE_HOST]; files open and [id3v2] succeeds. *)
Definition offline : World :=
  mk_World (fun _ _ => inr false) (fun _ => true) (fun _ _ => ([], 6%Z))
           (fun _ _ => true) (fun _ _ => 0%Z)
           (fun _ => "Couldn't resolve host name").

(** A world where no file can be opened for writing. *)
Definition read_only : World :=
  mk_World (fun _ _ => inr false) (fun _ => true) (fun _ _ => ([], 0%Z))
           (fun _ _ => false) (fun _ _ => 0%Z) (fun _ => "No error").

(** A world where the feed at [https://feed.example/rss] arrives in two
    pieces and every later transfer succeeds. *)
Definition online : World :=
  mk_World (fun _ _ => inr true) (fun _ => true)
           (fun _ url =>
              if String.eqb url "https://feed.example/rss"
              then (["<rss><channel><item><title>MAG 2</title><enclosure url='http://cdn/2.mp3'/></item>";
                     "<item><title>The Magnus Protocol 1</title><enclosure url='http://cdn/p1.mp3'/></item></channel></rss>"],
                    0%Z)
              else (["ID3"], 0%Z))
           (fun _ _ => true) (fun _ _ => 0%Z) (fun _ => "No error").

(** Seventeen episodes in ascending order, two of them with number 1. *)
Definition seventeen : list EpisodeInfo :=
  [mk_EpisodeInfo "MAG 1" "http://cdn/1.mp3" 1;
   mk_EpisodeInfo "MAG 1 (remastered)" "http://cdn/1r.mp3" 1;
   mk_EpisodeInfo "MAG 2" "http://cdn/2.mp3" 2;
   mk_EpisodeInfo "MAG 3" "http://cdn/3.mp3" 3;
   mk_EpisodeInfo "MAG 4" "http://cdn/4.mp3" 4;
   mk_EpisodeInfo "MAG 5" "http://cdn/5.mp3" 5;
   mk_EpisodeInfo "MAG 6" "http://cdn/6.mp3" 6;
   mk_EpisodeInfo "MAG 7" "http://cdn/7.mp3" 7;
   mk_EpisodeInfo "MAG 8" "http://cdn/8.mp3" 8;
   mk_EpisodeInfo "MAG 9" "http://cdn/9.mp3" 9;
   mk_EpisodeInfo "MAG 10" "http://cdn/10.mp3" 10;
   mk_EpisodeInfo "MAG 11" "http://cdn/11.mp3" 11;
   mk_EpisodeInfo "MAG 12" "http://cdn/12.mp3" 12;
   mk_EpisodeInfo "MAG 13" "http://cdn/13.mp3" 13;
   mk_EpisodeInfo "MAG 14" "http://cdn/14.mp3" 14;
   mk_EpisodeInfo "MAG 15" "http://cdn/15.mp3" 15;
   mk_EpisodeInfo "MAG 16" "http://cdn/16.mp3" 16].

(** The pattern [MAG (-\d+)], and a feed for it. *)
Definition pattern_signed : regex :=
  mk_regex (re_concat (re_string "MAG ")
              (re_group 1 (re_seq (re_char "-") (re_plus re_digit)))) true.

Definition feed_of_signed : string :=
  "<rss><channel>
    <item><title>MAG -1</title><enclosure url='http://cdn/a.mp3'/></item>
    <item><title>MAG -5</title><enclosure url='http://cdn/b.mp3'/></item>
   </channel></rss>".

(** A world where every transfer succeeds and delivers [chunks], every
    file opens and [id3v2] succeeds. *)
Definition serving (chunks : list string) : World :=
  mk_World (fun _ _ => inr true) (fun _ => true) (fun _ _ => (chunks, 0%Z))
           (fun _ _ => true) (fun _ _ => 0%Z) (fun _ => "No error").

(** A world where the directory cannot be created. *)
Definition no_space : World :=
  mk_World (fun _ _ => inl (filesystem_error "filesystem error: cannot create directories: No space left on device [Downloads]"))
           (fun _ => true) (fun _ _ => ([], 0%Z))
           (fun _ _ => true) (fun _ _ => 0%Z) (fun _ => "No error").

(** A feed whose second series has a number that does not fit an [int]. *)
Definition feed_of_large_number : string :=
  "<rss><channel>
    <item><title>MAG 1</title><enclosure url='http://cdn/1.mp3'/></item>
    <item><title>The Magnus Protocol 99999999999</title><enclosure url='http://cdn/p.mp3'/></item>
   </channel></rss>".

(** Three records, two of them with the same number. *)
Definition episodes_with_repeat : list EpisodeInfo :=
  [ mk_EpisodeInfo "MAG 2" "http://cdn/2.mp3" 2;
    mk_EpisodeInfo "MAG 1" "http://cdn/1.mp3" 1;
    mk_EpisodeInfo "MAG 2 (rerun)" "http://cdn/2r.mp3" 2 ].

(** An item whose title has the series name in the middle. *)
Definition item_of_rerun : xml_node_struct :=
  node_element "item" []
    [node_element "title" [] [node_pcdata "Rerun: MAG 12 - First Aid"]].

(** A feed of the two series, with titles in several spellings, and the
    document pugixml makes of it. *)
Definition feed_of_two_series : string :=
  "<rss><channel>
    <item><title>The Magnus Protocol 1 - First Shift</title><enclosure url='http://cdn/p1.mp3'/></item>
    <item><title>MAG 12 - First Aid</title><enclosure url='http://cdn/12.mp3'/></item>
    <item><title>Trailer</title><enclosure url='http://cdn/t.mp3'/></item>
    <item><title>mag 7</title><enclosure url='http://cdn/7.mp3'/></item>
    <item><title>THE MAGNUS PROTOCOL 2</title><enclosure url='http://cdn/p2.mp3'/></item>
   </channel></rss>".

Definition document_of_two_series : xml_document :=
  [node_element "rss" []
     [node_element "channel" []
        [node_element "item" []
           [node_element "title" [] [node_pcdata "The Magnus Protocol 1 - First Shift"];
            node_element "enclosure" [("url", "http://cdn/p1.mp3")] []];
         node_element "item" []
           [node_element "title" [] [node_pcdata "MAG 12 - First Aid"];
            node_element "enclosure" [("url", "http://cdn/12.mp3")] []];
         node_element "item" []
           [node_element "title" [] [node_pcdata "Trailer"];
            node_element "enclosure" [("url", "http://cdn/t.mp3")] []];
         node_element "item" []
           [node_element "title" [] [node_pcdata "mag 7"];
            node_element "enclosure" [("url", "http://cdn/7.mp3")] []];
         node_element "item" []
           [node_element "title" [] [node_pcdata "THE MAGNUS PROTOCOL 2"];
            node_element "enclosure" [("url", "http://cdn/p2.mp3")] []]]]].

(** A feed of the two series in which the title of the last item carries
    the names of both. *)
Definition feed_of_crossover : string :=
  "<rss><channel>
    <item><title>MAG 3</title><enclosure url='http://cdn/3.mp3'/></item>
    <item><title>The Magnus Protocol 1</title><enclosure url='http://cdn/p1.mp3'/></item>
    <item><title>The Magnus Protocol 2 - MAG 160 revisited</title><enclosure url='http://cdn/p2.mp3'/></item>
   </channel></rss>".

(** A feed with an item without [enclosure], an item whose [enclosure]
    has no [url] and an item without [title], and the document pugixml
    makes of it. *)
Definition feed_of_missing_children : string :=
  "<rss><channel><item><title>MAG 8</title></item><item><title>MAG 9</title><enclosure type='audio/mpeg'/></item><item><enclosure url='http://cdn/x.mp3'/></item></channel></rss>".

Definition item_without_enclosure : xml_node_struct :=
  node_element "item" [] [node_element "title" [] [node_pcdata "MAG 8"]].

Definition item_without_url : xml_node_struct :=
  node_element "item" []
    [node_element "title" [] [node_pcdata "MAG 9"];
     node_element "enclosure" [("type", "audio/mpeg")] []].

Definition item_without_title : xml_node_struct :=
  node_element "item" [] [node_element "enclosure" [("url", "http://cdn/x.mp3")] []].

Definition document_of_missing_children : xml_document :=
  [node_element "rss" []
     [node_element "channel" []
        [item_without_enclosure; item_without_url; item_without_title]]].

(** The pattern of a group around [\d*], which matches the empty text; a
    feed whose only item has no [title], the document pugixml makes of it,
    and the same feed with a title. *)
Definition pattern_digits : regex :=
  mk_regex (re_group 1 (re_star re_digit)) false.

Definition feed_without_title : string :=
  "<rss><channel><item><enclosure url='http://cdn/x.mp3'/></item></channel></rss>".

Definition document_without_title : xml_document :=
  [node_element "rss" [] [node_element "channel" [] [item_without_title]]].

Definition feed_with_title : string :=
  "<rss><channel><item><title>12</title><enclosure url='http://cdn/x.mp3'/></item></channel></rss>".

(** A feed of the two series as libcurl delivers it, in two pieces, and
    the document pugixml makes of it. *)
Definition feed_in_two_chunks : list string :=
  ["<rss><channel><item><title>The Magnus Protocol 1</title><enclosure url='http://cdn/p1.mp3'/></item><item><title>MAG 3</ti";
   "tle><enclosure url='http://cdn/3.mp3'/></item><item><title>MAG 1</title><enclosure url='http://cdn/1.mp3'/></item></channel></rss>"].

Definition document_of_two_chunks : xml_document :=
  [node_element "rss" []
     [node_element "channel" []
        [node_element "item" []
           [node_element "title" [] [node_pcdata "The Magnus Protocol 1"];
            node_element "enclosure" [("url", "http://cdn/p1.mp3")] []];
         node_element "item" []
           [node_element "title" [] [node_pcdata "MAG 3"];
            node_element "enclosure" [("url", "http://cdn/3.mp3")] []];
         node_element "item" []
           [node_element "title" [] [node_pcdata "MAG 1"];
            node_element "enclosure" [("url", "http://cdn/1.mp3")] []]]]].

Local Close Scope string_scope.

(** * Properties *)

(** ** [std::sort] rearranges the vector *)

Section SortPermutation.
Local Open Scope nat_scope.
Context {T : Type} (comp : T -> T -> bool).
Implicit Types v : list T.

Lemma iter_swap_Permutation i j v : iter_swap i j v ≡ₚ v.
Proof.
  unfold iter_swap.
  destruct (v !! i) as [x|] eqn:Hi; [|done].
  destruct (v !! j) as [y|] eqn:Hj; [|done].
  by apply Permutation_insert_swap.
Qed.

(** Moving the element at [c] into the hole at [hole]: the hole is then
    at [c]. *)
Lemma move_into_hole v hole c x val :
  hole < length v -> v !! c = Some x ->
  <[c := val]> (<[hole := x]> v) ≡ₚ <[hole := val]> v.
Proof.
  intros Hhole Hc. destruct (decide (hole = c)) as [->|Hne].
  - by rewrite list_insert_insert_eq.
  - rewrite <- (list_insert_insert_eq v hole x val).
    apply Permutation_insert_swap.
    + by apply list_lookup_insert_eq.
    + by rewrite list_lookup_insert_ne.
Qed.

Lemma move_median_to_first_Permutation result a b c v :
  move_median_to_first comp result a b c v ≡ₚ v.
Proof.
  unfold move_median_to_first.
  repeat case_match; apply iter_swap_Permutation.
Qed.

Lemma unguarded_partition_Permutation fuel first last pivot v :
  (unguarded_partition comp fuel first last pivot v).2 ≡ₚ v.
Proof.
  revert first last v. induction fuel as [|fuel IH]; intros first last v; [done|].
  simpl. case_match; [|done].
  rewrite IH. apply iter_swap_Permutation.
Qed.

Lemma unguarded_partition_pivot_Permutation first last v :
  (unguarded_partition_pivot comp first last v).2 ≡ₚ v.
Proof.
  unfold unguarded_partition_pivot.
  rewrite unguarded_partition_Permutation.
  apply move_median_to_first_Permutation.
Qed.

(** *** The heap *)

Lemma push_heap_loop_Permutation fuel first holeIndex topIndex value v :
  first + holeIndex < length v ->
  push_heap_loop comp fuel first holeIndex topIndex value v
    ≡ₚ <[first + holeIndex := value]> v.
Proof.
  revert holeIndex v. induction fuel as [|fuel IH]; intros holeIndex v Hhole.
  { done. }
  cbn [push_heap_loop].
  destruct (v !! (first + (holeIndex - 1) / 2)) as [p|] eqn:Hp; [|done].
  case_match; [|done].
  rewrite IH.
  - by apply move_into_hole.
  - rewrite length_insert. by eapply lookup_lt_Some.
Qed.

Lemma adjust_heap_loop_Permutation fuel first holeIndex secondChild len value v
    holeIndex' secondChild' v' :
  first + holeIndex < length v ->
  adjust_heap_loop comp fuel first holeIndex secondChild len v
    = (holeIndex', secondChild', v') ->
  first + holeIndex' < length v'
  /\ <[first + holeIndex' := value]> v' ≡ₚ <[first + holeIndex := value]> v.
Proof.
  revert holeIndex secondChild v.
  induction fuel as [|fuel IH]; intros holeIndex secondChild v Hhole Hloop.
  { by simplify_eq/=. }
  cbn [adjust_heap_loop] in Hloop.
  destruct (secondChild <? (len - 1) / 2); [|by simplify_eq].
  set (sc := if comp_iter comp v _ _ then _ else _) in Hloop.
  destruct (v !! (first + sc)) as [x|] eqn:Hx; [|by simplify_eq].
  apply IH in Hloop as [Hlen Hperm].
  - split; [done|]. rewrite Hperm. by apply move_into_hole.
  - rewrite length_insert. by eapply lookup_lt_Some.
Qed.

Lemma adjust_heap_Permutation first holeIndex len value v :
  first + holeIndex < length v ->
  adjust_heap comp first holeIndex len value v ≡ₚ <[first + holeIndex := value]> v.
Proof.
  intros Hhole. unfold adjust_heap.
  destruct (adjust_heap_loop comp len first holeIndex holeIndex len v)
    as [[h' s'] v'] eqn:Hloop.
  apply (adjust_heap_loop_Permutation _ _ _ _ _ value) in Hloop as [Hlen Hperm];
    [|done].
  destruct (Nat.even len && (s' =? (len - 2) / 2)).
  - destruct (v' !! (first + (2 * (s' + 1) - 1))) as [x|] eqn:Hx.
    + unfold push_heap. rewrite push_heap_loop_Permutation.
      * rewrite <- Hperm. by apply move_into_hole.
      * rewrite length_insert. by eapply lookup_lt_Some.
    + unfold push_heap. by rewrite push_heap_loop_Permutation.
  - unfold push_heap. by rewrite push_heap_loop_Permutation.
Qed.

Lemma pop_heap_Permutation first last result v :
  pop_heap comp first last result v ≡ₚ v.
Proof.
  unfold pop_heap.
  destruct (v !! result) as [value|] eqn:Hr; [|done].
  destruct (v !! first) as [top|] eqn:Hf; [|done].
  rewrite adjust_heap_Permutation.
  - rewrite Nat.add_0_r. by apply Permutation_insert_swap.
  - rewrite length_insert, Nat.add_0_r. by eapply lookup_lt_Some.
Qed.

Lemma make_heap_loop_Permutation parent first len v :
  make_heap_loop comp parent first len v ≡ₚ v.
Proof.
  revert v. induction parent as [|parent IH]; intros v; simpl.
  - destruct (v !! (first + 0)) as [value|] eqn:Hv; [|done].
    rewrite adjust_heap_Permutation by (by eapply lookup_lt_Some).
    by rewrite list_insert_id.
  - rewrite IH.
    destruct (v !! (first + S parent)) as [value|] eqn:Hv; [|done].
    rewrite adjust_heap_Permutation by (by eapply lookup_lt_Some).
    by rewrite list_insert_id.
Qed.

Lemma make_heap_Permutation first last v : make_heap comp first last v ≡ₚ v.
Proof.
  unfold make_heap. case_match; [done|]. apply make_heap_loop_Permutation.
Qed.

Lemma sort_heap_loop_Permutation fuel first last v :
  sort_heap_loop comp fuel first last v ≡ₚ v.
Proof.
  revert last v. induction fuel as [|fuel IH]; intros last v; [done|].
  simpl. case_match; [|done]. rewrite IH. apply pop_heap_Permutation.
Qed.

Lemma fold_left_Permutation {I : Type} (f : list T -> I -> list T) (l : list I) v :
  (forall w i, i ∈ l -> f w i ≡ₚ w) -> fold_left f l v ≡ₚ v.
Proof.
  revert v. induction l as [|i l IH]; intros v Hf; [done|].
  simpl. rewrite IH.
  - apply Hf. by left.
  - intros w j Hj. apply Hf. by right.
Qed.

Lemma partial_sort_Permutation first middle last v :
  partial_sort comp first middle last v ≡ₚ v.
Proof.
  unfold partial_sort, sort_heap, heap_select.
  rewrite sort_heap_loop_Permutation, fold_left_Permutation.
  - apply make_heap_Permutation.
  - intros w i _. case_match; [apply pop_heap_Permutation|done].
Qed.

Lemma introsort_loop_Permutation depth_limit first last v :
  introsort_loop comp depth_limit first last v ≡ₚ v.
Proof.
  revert first last v.
  induction depth_limit as [|d IH]; intros first last v; simpl.
  - case_match; [apply partial_sort_Permutation|done].
  - case_match; [|done].
    pose proof (unguarded_partition_pivot_Permutation first last v) as Hp.
    destruct (unguarded_partition_pivot comp first last v) as [cut v'].
    by rewrite !IH.
Qed.
End SortPermutation.

(** ** The final insertion sort *)

Section SortInsertion.
Local Open Scope nat_scope.
Context {T : Type} (comp : T -> T -> bool).
Implicit Types v : list T.

(** Where [__unguarded_linear_insert] leaves [val]: after the last
    element it is not smaller than, before a run of greater ones. *)
Lemma linear_insert_loop_app val pre x post :
  exists l1 l2,
    pre = l1 ++ l2
    /\ Forall (fun y => comp val y = true) l2
    /\ (forall y, last l1 = Some y -> comp val y = false)
    /\ linear_insert_loop comp val (length pre) (pre ++ x :: post)
       = l1 ++ val :: l2 ++ post.
Proof.
  revert x post. induction pre as [|y pre IH] using rev_ind; intros x post.
  { exists [], []. by repeat split. }
  rewrite length_app, Nat.add_1_r. cbn [linear_insert_loop].
  rewrite <- (assoc_L app), lookup_app_r, Nat.sub_diag by done. cbn [lookup app list_lookup].
  destruct (comp val y) eqn:Hy.
  - replace (<[S (length pre) := y]> (pre ++ y :: x :: post))
      with (pre ++ y :: y :: post).
    2:{ rewrite insert_app_r_alt by lia.
        by replace (S (length pre) - length pre) with 1 by lia. }
    destruct (IH y (y :: post)) as (l1 & l2 & -> & Hall & Hlast & ->).
    exists l1, (l2 ++ [y]). repeat split.
    + by rewrite (assoc_L app).
    + rewrite Forall_app. split; [done|]. by constructor.
    + done.
    + by rewrite <- !(assoc_L app).
  - exists (pre ++ [y]), []. repeat split.
    + by rewrite app_nil_r.
    + done.
    + intros y'. rewrite last_snoc. by intros [= <-].
    + rewrite insert_app_r_alt by lia.
      replace (S (length pre) - length pre) with 1 by lia.
      by rewrite <- (assoc_L app).
Qed.

Lemma unguarded_linear_insert_app i v val :
  v !! i = Some val ->
  exists l1 l2,
    take i v = l1 ++ l2
    /\ Forall (fun y => comp val y = true) l2
    /\ (forall y, last l1 = Some y -> comp val y = false)
    /\ unguarded_linear_insert comp i v = l1 ++ val :: l2 ++ drop (S i) v.
Proof.
  intros Hi. unfold unguarded_linear_insert. rewrite Hi.
  pose proof (lookup_lt_Some _ _ _ Hi) as Hlt.
  destruct (linear_insert_loop_app val (take i v) val (drop (S i) v))
    as (l1 & l2 & Htake & Hall & Hlast & Hloop).
  exists l1, l2. repeat split; try done.
  rewrite <- Hloop, length_take_le, take_drop_middle by (done || lia). done.
Qed.

Lemma unguarded_linear_insert_Permutation i v :
  unguarded_linear_insert comp i v ≡ₚ v.
Proof.
  destruct (v !! i) as [val|] eqn:Hi.
  - destruct (unguarded_linear_insert_app i v val Hi)
      as (l1 & l2 & Htake & _ & _ & ->).
    rewrite <- (take_drop_middle v i val Hi) at 2.
    rewrite Htake, <- !(assoc_L app). f_equiv.
    by rewrite (Permutation_middle l2).
  - unfold unguarded_linear_insert. by rewrite Hi.
Qed.

Lemma move_to_first_Permutation first i v :
  first <= i -> move_to_first first i v ≡ₚ v.
Proof.
  intros Hle. unfold move_to_first.
  destruct (v !! i) as [val|] eqn:Hi; [|done].
  assert (drop first v !! (i - first) = Some val) as Hd.
  { rewrite lookup_drop. by replace (first + (i - first)) with i by lia. }
  transitivity (take first v ++ drop first v); [|by rewrite take_drop].
  f_equiv.
  transitivity (take (i - first) (drop first v)
                  ++ val :: drop (S (i - first)) (drop first v)).
  - rewrite drop_drop. replace (first + S (i - first)) with (S i) by lia.
    apply Permutation_middle.
  - by rewrite take_drop_middle.
Qed.

Lemma insertion_step_Permutation v i : insertion_step comp v i ≡ₚ v.
Proof.
  unfold insertion_step. case_match.
  - apply move_to_first_Permutation. lia.
  - apply unguarded_linear_insert_Permutation.
Qed.

Lemma insertion_sort_Permutation last v : insertion_sort comp 0 last v ≡ₚ v.
Proof.
  unfold insertion_sort. case_match; [done|].
  apply fold_left_Permutation. intros w i _. apply insertion_step_Permutation.
Qed.

Lemma unguarded_insertion_sort_Permutation first last v :
  unguarded_insertion_sort comp first last v ≡ₚ v.
Proof.
  apply fold_left_Permutation. intros w i _.
  apply unguarded_linear_insert_Permutation.
Qed.

Lemma final_insertion_sort_Permutation last v :
  final_insertion_sort comp 0 last v ≡ₚ v.
Proof.
  unfold final_insertion_sort. case_match.
  - rewrite unguarded_insertion_sort_Permutation. apply insertion_sort_Permutation.
  - apply insertion_sort_Permutation.
Qed.

Theorem sort_Permutation v : sort comp v ≡ₚ v.
Proof.
  unfold sort. case_match; [done|].
  rewrite final_insertion_sort_Permutation. apply introsort_loop_Permutation.
Qed.

Lemma sort_length v : length (sort comp v) = length v.
Proof. apply Permutation_length, sort_Permutation. Qed.
End SortInsertion.

(** ** [std::sort] sorts, for a comparison that is a strict weak ordering *)

Section SortSorted.
Local Open Scope nat_scope.
Context {T : Type} (comp : T -> T -> bool).
Implicit Types v : list T.

Hypothesis comp_asym : forall x y, comp x y = true -> comp y x = false.
Hypothesis comp_negtrans :
  forall x y z, comp x y = false -> comp y z = false -> comp x z = false.

Lemma insert_ordered l1 l2 val :
  StronglySorted (ordered comp) (l1 ++ l2) ->
  Forall (fun y => comp val y = true) l2 ->
  (forall y, last l1 = Some y -> comp val y = false) ->
  StronglySorted (ordered comp) (l1 ++ val :: l2).
Proof.
  intros Hs Hl2 Hl1.
  apply StronglySorted_app in Hs as (H12 & Hs1 & Hs2).
  apply StronglySorted_app_2; [|done|].
  - intros x1 x2 Hx1 Hx2.
    apply elem_of_cons in Hx2 as [->|Hx2]; [|by apply H12].
    destruct l1 as [|z l1 _] using rev_ind; [by apply elem_of_nil in Hx1|].
    specialize (Hl1 z (last_snoc _ _)).
    apply elem_of_app in Hx1 as [Hx1|Hx1].
    + apply (comp_negtrans _ z); [done|].
      apply (StronglySorted_app_1_elem_of _ _ _ _ _ Hs1 Hx1). by left.
    + apply list_elem_of_singleton in Hx1 as ->. done.
  - constructor; [done|].
    eapply Forall_impl; [exact Hl2|]. intros y Hy. by apply comp_asym.
Qed.

Lemma unguarded_linear_insert_ordered i v :
  i < length v ->
  StronglySorted (ordered comp) (take i v) ->
  StronglySorted (ordered comp) (take (S i) (unguarded_linear_insert comp i v)).
Proof.
  intros Hi Hs.
  destruct (lookup_lt_is_Some_2 v i Hi) as [val Hval].
  destruct (unguarded_linear_insert_app comp i v val Hval)
    as (l1 & l2 & Htake & Hall & Hlast & ->).
  replace (l1 ++ val :: l2 ++ drop (S i) v)
    with ((l1 ++ val :: l2) ++ drop (S i) v) by by rewrite <- (assoc_L app).
  rewrite take_app_length'.
  - apply insert_ordered; [by rewrite <- Htake|done..].
  - apply (f_equal length) in Htake.
    rewrite length_take_le, length_app in Htake by lia.
    rewrite length_app. simpl. lia.
Qed.

Lemma insertion_step_ordered i v :
  i < length v ->
  StronglySorted (ordered comp) (take i v) ->
  StronglySorted (ordered comp) (take (S i) (insertion_step comp v i)).
Proof.
  intros Hi Hs. unfold insertion_step, comp_iter, move_to_first.
  destruct (lookup_lt_is_Some_2 v i Hi) as [val Hval]. rewrite Hval.
  destruct (v !! 0) as [f|] eqn:Hf;
    [|by apply unguarded_linear_insert_ordered].
  destruct (comp val f) eqn:Hc; [|by apply unguarded_linear_insert_ordered].
  rewrite take_0, drop_0, Nat.sub_0_r. cbn [app].
  rewrite firstn_cons, take_app_length' by (rewrite length_take_le; lia).
  constructor; [done|].
  destruct i as [|i]; [by rewrite take_0|].
  destruct v as [|f' v]; [done|]. injection Hf as ->.
  rewrite firstn_cons in Hs |- *.
  apply StronglySorted_cons in Hs as [Hall _].
  constructor; [by apply comp_asym|].
  eapply Forall_impl; [exact Hall|]. intros z Hz.
  apply (comp_negtrans _ f); [done|by apply comp_asym].
Qed.

Lemma fold_left_ordered (step : list T -> nat -> list T) n k v :
  (forall w i, step w i ≡ₚ w) ->
  (forall w i, i < length w -> StronglySorted (ordered comp) (take i w) ->
               StronglySorted (ordered comp) (take (S i) (step w i))) ->
  k + n <= length v ->
  StronglySorted (ordered comp) (take k v) ->
  StronglySorted (ordered comp) (take (k + n) (fold_left step (seq k n) v)).
Proof.
  intros Hperm Hstep. revert k v.
  induction n as [|n IH]; intros k v Hlen Hs.
  { by rewrite Nat.add_0_r. }
  cbn [seq fold_left]. replace (k + S n) with (S k + n) by lia.
  apply IH.
  - rewrite (Permutation_length (Hperm v k)). lia.
  - apply Hstep; [lia|done].
Qed.

Lemma insertion_sort_ordered last v :
  last <= length v ->
  StronglySorted (ordered comp) (take last (insertion_sort comp 0 last v)).
Proof.
  intros Hlen. unfold insertion_sort.
  destruct (0 =? last) eqn:H0.
  { apply Nat.eqb_eq in H0 as <-. rewrite take_0. constructor. }
  apply Nat.eqb_neq in H0.
  replace last with (1 + (last - (0 + 1))) at 1 by lia.
  apply (fold_left_ordered (insertion_step comp)).
  - apply insertion_step_Permutation.
  - intros. by apply insertion_step_ordered.
  - lia.
  - destruct v as [|x [|y v]]; repeat constructor.
Qed.

Lemma final_insertion_sort_ordered v :
  StronglySorted (ordered comp) (final_insertion_sort comp 0 (length v) v).
Proof.
  unfold final_insertion_sort. rewrite Nat.sub_0_r.
  destruct (_S_threshold <? length v) eqn:Hn.
  - apply Nat.ltb_lt in Hn. cbn [Nat.add].
    set (v1 := insertion_sort comp 0 _S_threshold v).
    assert (length v1 = length v) as Hlen1
      by apply Permutation_length, insertion_sort_Permutation.
    rewrite <- (take_ge (unguarded_insertion_sort _ _ _ _) (length v)).
    2:{ rewrite (Permutation_length (unguarded_insertion_sort_Permutation _ _ _ _)).
        lia. }
    replace (length v) with (_S_threshold + (length v - _S_threshold)) at 1 by lia.
    apply (fold_left_ordered (fun w i => unguarded_linear_insert comp i w)).
    + intros. apply unguarded_linear_insert_Permutation.
    + intros. by apply unguarded_linear_insert_ordered.
    + lia.
    + apply insertion_sort_ordered. lia.
  - rewrite <- (take_ge (insertion_sort _ _ _ _) (length v)).
    + by apply insertion_sort_ordered.
    + by rewrite (Permutation_length (insertion_sort_Permutation _ _ _)).
Qed.

Theorem sort_ordered v : StronglySorted (ordered comp) (sort comp v).
Proof.
  unfold sort. destruct (0 =? length v) eqn:H0.
  { destruct v; [constructor|done]. }
  rewrite Nat.sub_0_r.
  set (v1 := introsort_loop comp _ 0 (length v) v).
  replace (length v) with (length v1)
    by apply Permutation_length, introsort_loop_Permutation.
  apply final_insertion_sort_ordered.
Qed.

(** *** A sorted vector of at most [_S_threshold] elements is left alone *)

Lemma StronglySorted_lookup_lt (R : relation T) l a b x y :
  StronglySorted R l -> l !! a = Some x -> l !! b = Some y -> a < b -> R x y.
Proof.
  intros Hs Ha Hb Hab.
  rewrite <- (take_drop_middle l b y Hb) in Hs.
  eapply StronglySorted_app_1_elem_of; [exact Hs| |by left].
  apply list_elem_of_lookup. exists a. by rewrite lookup_take_lt.
Qed.

Lemma StronglySorted_take (R : relation T) l n :
  StronglySorted R l -> StronglySorted R (take n l).
Proof.
  intros Hs. rewrite <- (take_drop n l) in Hs.
  by apply StronglySorted_app_1_l in Hs.
Qed.

Lemma unguarded_linear_insert_id i v :
  StronglySorted (ordered comp) (take (S i) v) -> unguarded_linear_insert comp i v = v.
Proof.
  intros Hs. unfold unguarded_linear_insert.
  destruct (v !! i) as [val|] eqn:Hval; [|done].
  destruct i as [|next]; cbn [linear_insert_loop]; [by apply list_insert_id|].
  destruct (v !! next) as [x|] eqn:Hx; [|by apply list_insert_id].
  assert (ordered comp x val) as Hord.
  { apply (StronglySorted_lookup_lt _ _ next (S next) _ _ Hs);
      [by rewrite lookup_take_lt by lia..|lia]. }
  unfold ordered in Hord. rewrite Hord. by apply list_insert_id.
Qed.

Lemma insertion_step_id i v :
  StronglySorted (ordered comp) (take (S i) v) -> insertion_step comp v i = v.
Proof.
  intros Hs. unfold insertion_step, comp_iter.
  destruct (v !! i) as [val|] eqn:Hval;
    [|by apply unguarded_linear_insert_id].
  destruct (v !! 0) as [f|] eqn:Hf; [|by apply unguarded_linear_insert_id].
  assert (comp val f = false) as ->; [|by apply unguarded_linear_insert_id].
  destruct i as [|i].
  - assert (val = f) as -> by congruence.
    destruct (comp f f) eqn:Hc; [|done]. by rewrite (comp_asym _ _ Hc) in Hc.
  - apply (StronglySorted_lookup_lt _ _ 0 (S i) _ _ Hs);
      [by rewrite lookup_take_lt by lia..|lia].
Qed.

Lemma fold_left_id (step : list T -> nat -> list T) n k v :
  (forall w i, StronglySorted (ordered comp) (take (S i) w) -> step w i = w) ->
  StronglySorted (ordered comp) v ->
  fold_left step (seq k n) v = v.
Proof.
  intros Hstep Hs. revert k.
  induction n as [|n IH]; intros k; [done|].
  cbn [seq fold_left]. rewrite Hstep by by apply StronglySorted_take.
  apply IH.
Qed.

Lemma final_insertion_sort_id last v :
  StronglySorted (ordered comp) v -> final_insertion_sort comp 0 last v = v.
Proof.
  intros Hs. unfold final_insertion_sort, unguarded_insertion_sort, insertion_sort.
  assert (forall l, (if 0 =? l then v
                     else fold_left (fun v i =>
                            if comp_iter comp v i 0 then move_to_first 0 i v
                            else unguarded_linear_insert comp i v)
                          (seq (0 + 1) (l - (0 + 1))) v) = v) as Hins.
  { intros l. case_match; [done|].
    apply (fold_left_id (insertion_step comp)); [|done].
    intros. by apply insertion_step_id. }
  case_match; rewrite Hins; [|done].
  apply (fold_left_id (fun w i => unguarded_linear_insert comp i w)); [|done].
  intros. by apply unguarded_linear_insert_id.
Qed.

Lemma introsort_loop_short depth_limit first last v :
  last - first <= _S_threshold -> introsort_loop comp depth_limit first last v = v.
Proof.
  intros Hle. apply Nat.ltb_ge in Hle.
  destruct depth_limit; cbn [introsort_loop]; by rewrite Hle.
Qed.

Theorem sort_short_id v :
  length v <= _S_threshold -> StronglySorted (ordered comp) v -> sort comp v = v.
Proof.
  intros Hlen Hs. unfold sort. case_match; [done|].
  rewrite introsort_loop_short by lia. by apply final_insertion_sort_id.
Qed.

Theorem sort_short_idempotent v :
  length v <= _S_threshold -> sort comp (sort comp v) = sort comp v.
Proof.
  intros Hlen. apply sort_short_id; [by rewrite sort_length|apply sort_ordered].
Qed.
End SortSorted.

(** ** Running a computation *)

Lemma prog_bind_run {A B : Type} (c : prog A) (f : A -> prog B) (h : list event) :
  (c ≫= f) h
  = match c h with
    | (inr a, h') => f a h'
    | (inl e, h') => (inl e, h')
    end.
Proof. reflexivity. Qed.

Lemma emit_run (e : event) (h : list event) : emit e h = (inr tt, h ++ [e]).
Proof. reflexivity. Qed.

Lemma call_run {A : Type} (answer : list event -> A) (e : A -> event)
    (h : list event) :
  call answer e h = (inr (answer h), h ++ [e (answer h)]).
Proof. reflexivity. Qed.

(** ** The feed parser *)

Section Parser.
Variable load_string : string -> xml_parse_result.
Implicit Types (pattern : regex) (item : xml_node_struct)
               (episodes : list EpisodeInfo) (h : list event).

Lemma parse_item_eq pattern item episodes h :
  parse_item pattern item episodes h =
  match regex_search (item_name item) pattern with
  | Some m =>
      match stoi (str m 1) with
      | inr n =>
          (inr (if (n =? -1)%Z then episodes
                else episodes ++ [mk_EpisodeInfo (item_name item) (item_link item) n]),
           h)
      | inl e => (inl e, h)
      end
  | None => (inr episodes, h)
  end.
Proof.
  unfold parse_item, item_name, item_link, mbind, prog_bind, mret, prog_ret, throw.
  destruct (regex_search _ pattern) as [m|]; [|done].
  destruct (stoi (str m 1)) as [e|n]; [done|].
  by destruct (n =? -1)%Z.
Qed.

Lemma parse_item_episode_of pattern item episodes h :
  (forall m, regex_search (item_name item) pattern = Some m ->
             exists n, stoi (str m 1) = inr n) ->
  parse_item pattern item episodes h
  = (inr (episodes ++ option_list (episode_of pattern item)), h).
Proof.
  intros Hconv. rewrite parse_item_eq. unfold episode_of.
  destruct (regex_search _ pattern) as [m|]; [|by rewrite app_nil_r].
  destruct (Hconv m eq_refl) as [n ->].
  destruct (n =? -1)%Z; [by rewrite app_nil_r|done].
Qed.

(** When no capture makes [std::stoi] throw, the loop appends the
    episodes of the matching items, in the order of the items. *)
Lemma parse_items_episode_of pattern items episodes h :
  (forall item m, item ∈ items ->
     regex_search (item_name item) pattern = Some m ->
     exists n, stoi (str m 1) = inr n) ->
  parse_items pattern items episodes h
  = (inr (episodes ++ omap (episode_of pattern) items), h).
Proof.
  revert episodes. induction items as [|item items IH]; intros episodes Hconv.
  { by rewrite app_nil_r. }
  cbn [parse_items]. unfold mbind, prog_bind.
  rewrite parse_item_episode_of by (intros m; apply Hconv; by left).
  rewrite IH by (intros i m Hi; apply Hconv; by right).
  rewrite <- (assoc_L app). do 3 f_equal.
  cbn [omap list_omap]. by destruct (episode_of pattern item).
Qed.

Lemma episode_of_matching pattern items :
  (forall item m, item ∈ items ->
     regex_search (item_name item) pattern = Some m ->
     exists n, stoi (str m 1) = inr n /\ (0 <= n)%Z) ->
  Forall2 (fun item e =>
             name e = item_name item /\ link e = item_link item
             /\ (0 <= episodeNumber e)%Z
             /\ exists m, regex_search (item_name item) pattern = Some m
                          /\ stoi (str m 1) = inr (episodeNumber e))
          (List.filter (matches pattern) items)
          (omap (episode_of pattern) items).
Proof.
  induction items as [|item items IH]; intros Hconv; [constructor|].
  cbn [List.filter omap list_omap]. unfold matches at 1, episode_of at 1.
  destruct (regex_search (item_name item) pattern) as [m|] eqn:Hm.
  - destruct (Hconv item m) as (n & Hn & Hpos); [by left|done|].
    rewrite Hn. destruct (Z.eqb_spec n (-1)); [lia|].
    constructor.
    + simpl. eauto 10.
    + apply IH. intros i m' Hi. apply Hconv. by right.
  - apply IH. intros i m' Hi. apply Hconv. by right.
Qed.
End Parser.

Local Open Scope string_scope.

(** C1, as stated, fails: the title of the only item of this feed matches
    [MAG (\d+)], yet the parser returns no record; [std::stoi] leaves
    [parseRssFeed] by [std::out_of_range] because the captured number does
    not fit an [int]. *)
Lemma parseRssFeed_number_too_large :
  let xmlData :=
    "<rss><channel><item><title>MAG 99999999999</title><enclosure url='http://cdn/e.mp3'/></item></channel></rss>" in
  let item :=
    node_element "item" []
      [node_element "title" [] [node_pcdata "MAG 99999999999"];
       node_element "enclosure" [("url", "http://cdn/e.mp3")] []] in
  FeedText.read_document xmlData
    = status_ok [node_element "rss" [] [node_element "channel" [] [item]]]
  /\ matches pattern item = true
  /\ parseRssFeed FeedText.read_document pattern xmlData [] []
     = (inl (out_of_range "stoi"), []).
Proof. vm_compute. done. Qed.

(** C1 (amended).  For every feed text that pugixml accepts and every
    pattern, if [std::stoi] converts the first capture of each matching
    item title to a non-negative [int], then [parseRssFeed] writes nothing
    and appends to the vector exactly one record per matching item, in feed
    order (so N records for N matching items): the record has the title and
    the enclosure link of the item, and its [episodeNumber] is [>= 0] and
    is the number converted from the first capture.  The items whose titles
    do not match add nothing. *)
Theorem parseRssFeed_matching_items
    (load_string : string -> xml_parse_result) (pattern : regex)
    (xmlData : string) (doc : xml_document)
    (episodes : list EpisodeInfo) (h : list event) :
  load_string xmlData = status_ok doc ->
  (forall item m, item ∈ items_of doc ->
     regex_search (item_name item) pattern = Some m ->
     exists n, stoi (str m 1) = inr n /\ (0 <= n)%Z) ->
  exists records,
    parseRssFeed load_string pattern xmlData episodes h
      = (inr (episodes ++ records)%list, h)
    /\ length records = length (List.filter (matches pattern) (items_of doc))
    /\ Forall2 (fun item e =>
                  name e = item_name item /\ link e = item_link item
                  /\ (0 <= episodeNumber e)%Z
                  /\ exists m, regex_search (item_name item) pattern = Some m
                               /\ stoi (str m 1) = inr (episodeNumber e))
               (List.filter (matches pattern) (items_of doc)) records.
Proof.
  intros Hdoc Hconv. exists (omap (episode_of pattern) (items_of doc)).
  pose proof (episode_of_matching pattern (items_of doc) Hconv) as Hall.
  split; [|split; [|done]].
  - unfold parseRssFeed. rewrite Hdoc.
    apply parse_items_episode_of. intros item m Hin Hm.
    destruct (Hconv item m Hin Hm) as (n & Hn & _). eauto.
  - symmetry. by eapply Forall2_length.
Qed.

Lemma parseRssFeed_matching_items_witness :
  exists records,
    parseRssFeed FeedText.read_document pattern feed_of_three [] []
      = (inr records, [])
    /\ length records = 2%nat
    /\ map episodeNumber records = [12; 7]%Z.
Proof.
  destruct (parseRssFeed_matching_items FeedText.read_document pattern
              feed_of_three
              [node_element "rss" [("version", "2.0")]
                 [node_element "channel" []
                    [node_element "title" [] [node_pcdata "Rusty Quill"];
                     node_element "item" []
                       [node_element "title" [] [node_pcdata "MAG 12 - First Aid"];
                        node_element "enclosure"
                          [("url", "http://cdn/12.mp3"); ("type", "audio/mpeg")] []];
                     node_element "item" []
                       [node_element "title" [] [node_pcdata "Trailer"];
                        node_element "enclosure" [("url", "http://cdn/t.mp3")] []];
                     node_element "item" []
                       [node_element "title" [] [node_pcdata "mag 7"];
                        node_element "enclosure" [("url", "http://cdn/7.mp3")] []]]]]
              [] [])
    as (records & Hparse & Hlen & Hall).
  - vm_compute. reflexivity.
  - intros item m Hin Hm.
    match type of Hin with _ ∈ ?l =>
      let l' := eval vm_compute in l in change l with l' in Hin end.
    repeat (apply elem_of_cons in Hin as [->|Hin]);
      [..|by apply elem_of_nil in Hin]; vm_compute in Hm; [|done|].
    + injection Hm as <-. exists 12%Z. by vm_compute.
    + injection Hm as <-. exists 7%Z. by vm_compute.
  - exists records. split; [exact Hparse|]. split; [exact Hlen|].
    vm_compute in Hparse. by injection Hparse as <-.
Defined.

(** C4.  For every input text that pugixml refuses, [parseRssFeed] writes
    the line [Error parsing XML: ] followed by the description of the
    failure to [std::cerr] and returns normally (no exception leaves it, the
    process goes on) with the caller's vector unchanged: called with an
    empty vector, as [main] does, it yields an empty list. *)
Theorem parseRssFeed_malformed
    (load_string : string -> xml_parse_result) (pattern : regex)
    (xmlData description : string) (episodes : list EpisodeInfo) (h : list event) :
  load_string xmlData = status_error description ->
  parseRssFeed load_string pattern xmlData episodes h
  = (inr episodes, (h ++ [cerr ("Error parsing XML: " ++ description)])%list).
Proof. intros Hload. unfold parseRssFeed. by rewrite Hload. Qed.

Lemma parseRssFeed_malformed_witness :
  parseRssFeed FeedText.read_document pattern "<rss><channel><item>" [] []
  = (inr [], [cerr "Error parsing XML: Start-end tags mismatch"]).
Proof.
  apply (parseRssFeed_malformed FeedText.read_document pattern
           "<rss><channel><item>" "Start-end tags mismatch" [] []).
  vm_compute. reflexivity.
Defined.

(** C6.  The title [mag 5 bonus] matches the case-insensitive pattern
    [MAG (\d+)] (the match covers [mag 5] only), the first capture is [5],
    and the parser gives an item with that title the episode number 5. *)
Theorem mag_5_bonus
    (item : xml_node_struct) (episodes : list EpisodeInfo) (h : list event) :
  item_name item = "mag 5 bonus" ->
  (exists m, regex_search (item_name item) pattern = Some m
             /\ str m 1 = "5" /\ stoi (str m 1) = inr 5%Z)
  /\ parse_item pattern item episodes h
     = (inr (episodes ++ [mk_EpisodeInfo "mag 5 bonus" (item_link item) 5])%list, h).
Proof.
  intros Hname. split.
  - rewrite Hname. exists (mk_smatch [(1%nat, ["5"%char])]). by vm_compute.
  - rewrite parse_item_eq, Hname. reflexivity.
Qed.

Lemma mag_5_bonus_witness :
  parseRssFeed FeedText.read_document pattern
    "<rss><channel><item><title>mag 5 bonus</title><enclosure url='http://cdn/b.mp3'/></item></channel></rss>"
    [] []
  = (inr [mk_EpisodeInfo "mag 5 bonus" "http://cdn/b.mp3" 5], []).
Proof.
  pose proof (mag_5_bonus
                (node_element "item" []
                   [node_element "title" [] [node_pcdata "mag 5 bonus"];
                    node_element "enclosure" [("url", "http://cdn/b.mp3")] []])
                [] [] eq_refl) as [_ Hitem].
  unfold parseRssFeed.
  change (FeedText.read_document _) with
    (status_ok [node_element "rss" []
                  [node_element "channel" []
                     [node_element "item" []
                        [node_element "title" [] [node_pcdata "mag 5 bonus"];
                         node_element "enclosure" [("url", "http://cdn/b.mp3")] []]]]]).
  cbn [select_nodes select_steps]. cbn [List.filter has_name String.eqb Ascii.eqb Bool.eqb flat_map children_of app].
  cbn [parse_items]. unfold mbind, prog_bind. rewrite Hitem. reflexivity.
Defined.

(** ** Downloading and tagging *)

Section Download.
Variable world : World.
Implicit Types (episode : EpisodeInfo) (h : list event).

Lemma setTrackNumber_returns filePath episode h :
  exists h', setTrackNumber world filePath episode h = (inr tt, h').
Proof.
  unfold setTrackNumber, mbind, prog_bind, call, emit.
  case_match; eauto.
Qed.

Lemma downloadContent_returns episode h :
  exists h', downloadContent world episode h = (inr tt, h').
Proof.
  unfold downloadContent, mbind, prog_bind, call, emit, mret, prog_ret.
  destruct (answer_curl_easy_init world h); cbn [negb]; [|eauto].
  destruct (answer_fopen world _ _); cbn [negb]; [|eauto].
  destruct (answer_curl_easy_perform world _ _) as [chunks res]. cbn [fst snd].
  destruct (negb (res =? CURLE_OK)%Z); apply setTrackNumber_returns.
Qed.

Lemma for_each_returns {A : Type} (body : A -> prog unit) l h :
  (forall x h, exists h', body x h = (inr tt, h')) ->
  exists h', for_each l body h = (inr tt, h').
Proof.
  intros Hbody. revert h. induction l as [|x l IH]; intros h.
  { by exists h. }
  cbn [for_each]. unfold mbind, prog_bind.
  destruct (Hbody x h) as [h1 ->]. apply IH.
Qed.

Lemma for_each_app {A : Type} (body : A -> prog unit) l1 l2 h :
  (forall x h, exists h', body x h = (inr tt, h')) ->
  for_each (l1 ++ l2) body h = for_each l2 body (for_each l1 body h).2.
Proof.
  intros Hbody. revert h. induction l1 as [|x l1 IH]; intros h; [done|].
  cbn [for_each app]. unfold mbind, prog_bind.
  destruct (Hbody x h) as [h1 ->]. apply IH.
Qed.

(** The body of the loop of [main] over the episodes. *)
Lemma display_and_download_body_returns episode h :
  exists h',
    (emit (cout ("Title: " ++ name episode));;
     emit (cout ("Link: " ++ link episode));;
     emit (cout ("Episode Number: " ++ to_string (episodeNumber episode)));;
     downloadContent world episode;;
     emit (cout "----------------------")) h = (inr tt, h').
Proof.
  unfold mbind, prog_bind, emit.
  destruct (downloadContent_returns episode
              (((h ++ [cout ("Title: " ++ name episode)])
                  ++ [cout ("Link: " ++ link episode)])
                 ++ [cout ("Episode Number: " ++ to_string (episodeNumber episode))])%list)
    as [h1 ->].
  eauto.
Qed.

(** No exception leaves the loop over the episodes. *)
Lemma display_and_download_returns episodes h :
  exists h', display_and_download world episodes h = (inr tt, h').
Proof.
  apply for_each_returns. intros. apply display_and_download_body_returns.
Qed.

Lemma display_and_download_app before after h :
  display_and_download world (before ++ after) h
  = display_and_download world after (display_and_download world before h).2.
Proof.
  apply for_each_app. intros. apply display_and_download_body_returns.
Qed.

Lemma for_each_cons {A : Type} (body : A -> prog unit) x l h h1 :
  body x h = (inr tt, h1) -> for_each (x :: l) body h = for_each l body h1.
Proof. intros Hx. cbn [for_each]. unfold mbind, prog_bind. by rewrite Hx. Qed.

Lemma display_and_download_cons episode after h h' :
  downloadContent world episode
    (h ++ [cout ("Title: " ++ name episode);
           cout ("Link: " ++ link episode);
           cout ("Episode Number: " ++ to_string (episodeNumber episode))])%list
  = (inr tt, h') ->
  display_and_download world (episode :: after) h
  = display_and_download world after (h' ++ [cout "----------------------"])%list.
Proof.
  intros Hdl. unfold display_and_download. apply for_each_cons.
  unfold mbind, prog_bind, emit.
  rewrite <- !(assoc_L app). cbn [app]. by rewrite Hdl.
Qed.

(** What [downloadContent] does when the transfer fails: the failure is
    reported, and the tagger runs all the same. *)
Lemma downloadContent_transfer_failure episode h chunks res :
  let path := "Downloads/" ++ name episode ++ ".mp3" in
  let h1 := (h ++ [curl_easy_init true; fopen path "wb" true])%list in
  answer_curl_easy_init world h = true ->
  answer_fopen world (h ++ [curl_easy_init true]) path = true ->
  answer_curl_easy_perform world h1 (link episode) = (chunks, res) ->
  res <> CURLE_OK ->
  downloadContent world episode h
  = setTrackNumber world path episode
      (h1 ++ [curl_easy_perform (link episode) (to_file path) chunks res;
              cerr ("curl_easy_perform() failed for download: "
                    ++ curl_easy_strerror world res);
              curl_easy_cleanup; fclose path])%list.
Proof.
  intros path h1 Hinit Hopen Hperform Hres.
  unfold downloadContent, mbind, prog_bind, call, emit, mret, prog_ret.
  rewrite Hinit. cbn [negb]. fold path. rewrite Hopen. cbn [negb].
  rewrite <- (assoc_L app). cbn [app]. fold h1. rewrite Hperform. cbn [fst snd].
  apply Z.eqb_neq in Hres. rewrite Hres. cbn [negb].
  by rewrite <- !(assoc_L app).
Qed.
End Download.

(** C2 fails on the code: in the [offline] world the transfer of the
    enclosure of this episode fails and the failure is reported, but
    [downloadContent] goes on and runs the tagger ([std::system] with the
    [id3v2] command) on the file. *)
Theorem downloadContent_tags_after_failed_transfer :
  downloadContent offline (mk_EpisodeInfo "MAG 1" "http://cdn/1.mp3" 1) []
  = (inr tt,
     [curl_easy_init true;
      fopen "Downloads/MAG 1.mp3" "wb" true;
      curl_easy_perform "http://cdn/1.mp3" (to_file "Downloads/MAG 1.mp3") [] 6;
      cerr "curl_easy_perform() failed for download: Couldn't resolve host name";
      curl_easy_cleanup;
      fclose "Downloads/MAG 1.mp3";
      system ("id3v2 --track 1 --song " ++ dquote ++ "MAG 1" ++ dquote
              ++ " " ++ dquote ++ "Downloads/MAG 1.mp3" ++ dquote) 0;
      cout "Track number set successfully."]).
Proof. vm_compute. reflexivity. Qed.

(** C7.  When the destination file of an episode cannot be opened for
    writing, [downloadContent] reports [Error opening file for writing.] on
    [std::cerr], releases the curl handle and returns: no transfer and no
    call of the tagger ([std::system]) happens for that episode.  The loop
    of [main] then prints the divider and goes on with the episodes that
    follow. *)
Theorem downloadContent_fopen_failure
    (world : World) (before after : list EpisodeInfo) (episode : EpisodeInfo)
    (h : list event) :
  let path := "Downloads/" ++ name episode ++ ".mp3" in
  let h1 :=
    ((display_and_download world before h).2
       ++ [cout ("Title: " ++ name episode);
           cout ("Link: " ++ link episode);
           cout ("Episode Number: " ++ to_string (episodeNumber episode))])%list in
  let report :=
    [curl_easy_init true; fopen path "wb" false;
     cerr "Error opening file for writing."; curl_easy_cleanup] in
  answer_curl_easy_init world h1 = true ->
  answer_fopen world (h1 ++ [curl_easy_init true]) path = false ->
  downloadContent world episode h1 = (inr tt, (h1 ++ report)%list)
  /\ display_and_download world (before ++ episode :: after) h
     = display_and_download world after
         (h1 ++ report ++ [cout "----------------------"])%list.
Proof.
  intros path h1 report Hinit Hopen.
  assert (downloadContent world episode h1 = (inr tt, (h1 ++ report)%list)) as Hdl.
  { unfold downloadContent, mbind, prog_bind, call, emit.
    rewrite Hinit. cbn [negb]. fold path. rewrite Hopen. cbn [negb].
    unfold report. by rewrite <- !(assoc_L app). }
  split; [done|].
  rewrite display_and_download_app.
  rewrite (display_and_download_cons world episode after _ _ Hdl).
  by rewrite <- !(assoc_L app).
Qed.

Lemma downloadContent_fopen_failure_witness :
  display_and_download read_only
    [mk_EpisodeInfo "MAG 1" "http://cdn/1.mp3" 1;
     mk_EpisodeInfo "MAG 2" "http://cdn/2.mp3" 2] []
  = (inr tt,
     [cout "Title: MAG 1"; cout "Link: http://cdn/1.mp3"; cout "Episode Number: 1";
      curl_easy_init true; fopen "Downloads/MAG 1.mp3" "wb" false;
      cerr "Error opening file for writing."; curl_easy_cleanup;
      cout "----------------------";
      cout "Title: MAG 2"; cout "Link: http://cdn/2.mp3"; cout "Episode Number: 2";
      curl_easy_init true; fopen "Downloads/MAG 2.mp3" "wb" false;
      cerr "Error opening file for writing."; curl_easy_cleanup;
      cout "----------------------"]).
Proof.
  destruct (downloadContent_fopen_failure read_only []
              [mk_EpisodeInfo "MAG 2" "http://cdn/2.mp3" 2]
              (mk_EpisodeInfo "MAG 1" "http://cdn/1.mp3" 1) [])
    as [_ Hloop].
  - reflexivity.
  - reflexivity.
  - cbn [app] in Hloop. rewrite Hloop. vm_compute. reflexivity.
Defined.

(** ** The command line *)

Lemma parse_items_history (pattern : regex) (items : list xml_node_struct)
    (episodes : list EpisodeInfo) (h : list event) :
  parse_items pattern items episodes h
  = ((parse_items pattern items episodes []).1, h).
Proof.
  revert episodes. induction items as [|item items IH]; intros episodes; [done|].
  cbn [parse_items]. unfold mbind, prog_bind. rewrite !parse_item_eq.
  destruct (regex_search _ pattern) as [m|]; [|apply IH].
  destruct (stoi (str m 1)) as [e|n]; [done|apply IH].
Qed.

(** Whether an exception leaves [parseRssFeed] does not depend on what
    happened before. *)
Lemma parseRssFeed_history (load_string : string -> xml_parse_result)
    (pattern : regex) (xmlData : string) (episodes : list EpisodeInfo)
    (h : list event) :
  (parseRssFeed load_string pattern xmlData episodes h).1
  = (parseRssFeed load_string pattern xmlData episodes []).1.
Proof.
  unfold parseRssFeed. destruct (load_string xmlData); [|done].
  by rewrite parse_items_history.
Qed.

(** C5.  [main] takes the feed URL as [argv[1]].
    - Without it, the usage hint [Add your patreon URL] goes to [std::cerr]
      and the exit status is 1.
    - When the initial request fails (no curl handle, or a transfer result
      other than [CURLE_OK]), an error line goes to [std::cerr] and the exit
      status is 1.
    - When the feed is fetched and both series are processed to the end (no
      exception leaves either parse), the exit status is 0. *)
Theorem main_exit_status
    (load_string : string -> xml_parse_result) (world : World)
    (argv : list string) (h : list event) :
  (argv !! 1%nat = None ->
   main load_string world argv h = (inr 1%Z, (h ++ [cerr "Add your patreon URL"])%list))
  /\ (forall url created,
        argv !! 1%nat = Some url ->
        let h1 := (h ++ [cout url])%list in
        answer_create_directories world h1 "Downloads" = inr created ->
        let h2 := (h1 ++ [create_directories "Downloads" (inr created)])%list in
        (answer_curl_easy_init world h2 = false ->
         main load_string world argv h
         = (inr 1%Z, (h2 ++ [curl_easy_init false; cerr "Error initializing curl."])%list))
        /\ (forall chunks res,
              answer_curl_easy_init world h2 = true ->
              let h3 := (h2 ++ [curl_easy_init true])%list in
              answer_curl_easy_perform world h3 url = (chunks, res) ->
              let responseData :=
                fold_left (fun output contents => fst (writeCallback contents output))
                          chunks EmptyString in
              (res <> CURLE_OK ->
               main load_string world argv h
               = (inr 1%Z,
                  (h3 ++ [curl_easy_perform url to_callback chunks res;
                          cerr ("curl_easy_perform() failed: "
                                ++ curl_easy_strerror world res);
                          curl_easy_cleanup])%list))
              /\ (forall episodes episodes2,
                    res = CURLE_OK ->
                    (parseRssFeed load_string pattern responseData [] []).1
                      = inr episodes ->
                    (parseRssFeed load_string pattern2 responseData [] []).1
                      = inr episodes2 ->
                    exists h', main load_string world argv h = (inr 0%Z, h')))).
Proof.
  split.
  { intros Hargv. unfold main. by rewrite Hargv. }
  intros url created Hargv h1 Hcreated h2.
  assert (forall k : bool -> prog Z,
            (emit (cout url);;
             created ← call (fun h => answer_create_directories world h "Downloads")
                            (create_directories "Downloads");
             match created with
             | inr _ => mret tt
             | inl e => throw e
             end;;
             curl ← call (answer_curl_easy_init world) curl_easy_init;
             k curl) h
            = k (answer_curl_easy_init world h2)
                (h2 ++ [curl_easy_init (answer_curl_easy_init world h2)])%list)
    as Hstart.
  { intros k.
    rewrite prog_bind_run, emit_run. fold h1.
    rewrite prog_bind_run, call_run, Hcreated. fold h2.
    rewrite prog_bind_run. cbn [mret prog_ret].
    by rewrite prog_bind_run, call_run. }
  unfold main. rewrite Hargv, Hstart. clear Hstart. split.
  { intros ->. cbn [negb].
    rewrite prog_bind_run, emit_run. by rewrite <- (assoc_L app). }
  intros chunks res ->. cbv zeta. intros Hperform. cbn [negb].
  set (h3 := (h2 ++ [curl_easy_init true])%list) in *.
  rewrite prog_bind_run, call_run, Hperform. cbn [fst snd].
  set (responseData := fold_left _ chunks EmptyString).
  split.
  { intros Hres.
    apply Z.eqb_neq in Hres. rewrite Hres. cbn [negb].
    rewrite prog_bind_run, emit_run, prog_bind_run, emit_run.
    by rewrite <- !(assoc_L app). }
  intros episodes episodes2 -> Hparse Hparse2.
  rewrite Z.eqb_refl. cbn [negb].
  cut (forall p : (exception + Z) * list event,
         p.1 = inr 0%Z -> exists h', p = (inr 0%Z, h')).
  2:{ intros [r h'] [= ->]. by exists h'. }
  intros Hcut. apply Hcut. clear Hcut.
  rewrite prog_bind_run, emit_run.
  set (h4 := ((h3 ++ _) ++ _)%list).
  rewrite prog_bind_run.
  pose proof (parseRssFeed_history load_string pattern responseData [] h4) as H1.
  rewrite Hparse in H1.
  destruct (parseRssFeed load_string pattern responseData [] h4) as [r1 h5].
  cbn [fst] in H1. subst r1.
  rewrite prog_bind_run.
  destruct (display_and_download_returns world (sort by_episodeNumber episodes) h5)
    as [h6 ->].
  rewrite prog_bind_run.
  pose proof (parseRssFeed_history load_string pattern2 responseData [] h6) as H2.
  rewrite Hparse2 in H2.
  destruct (parseRssFeed load_string pattern2 responseData [] h6) as [r2 h7].
  cbn [fst] in H2. subst r2.
  rewrite prog_bind_run.
  by destruct (display_and_download_returns world (sort by_episodeNumber episodes2) h7)
    as [h8 ->].
Qed.

Lemma main_exit_status_witness :
  main FeedText.read_document online ["magnus"] []
    = (inr 1%Z, [cerr "Add your patreon URL"])
  /\ main FeedText.read_document offline ["magnus"; "https://feed.example/rss"] []
     = (inr 1%Z,
        [cout "https://feed.example/rss";
         create_directories "Downloads" (inr false);
         curl_easy_init true;
         curl_easy_perform "https://feed.example/rss" to_callback [] 6;
         cerr "curl_easy_perform() failed: Couldn't resolve host name";
         curl_easy_cleanup])
  /\ exists h',
       main FeedText.read_document online ["magnus"; "https://feed.example/rss"] []
       = (inr 0%Z, h').
Proof.
  split; [|split].
  - apply (main_exit_status FeedText.read_document online ["magnus"] []).
    reflexivity.
  - destruct (main_exit_status FeedText.read_document offline
                ["magnus"; "https://feed.example/rss"] []) as [_ Hurl].
    destruct (Hurl "https://feed.example/rss" false eq_refl eq_refl) as [_ Hfetch].
    destruct (Hfetch [] 6%Z eq_refl eq_refl) as [Hfail _].
    apply Hfail. discriminate.
  - destruct (main_exit_status FeedText.read_document online
                ["magnus"; "https://feed.example/rss"] []) as [_ Hurl].
    destruct (Hurl "https://feed.example/rss" true eq_refl eq_refl) as [_ Hfetch].
    destruct (Hfetch
                ["<rss><channel><item><title>MAG 2</title><enclosure url='http://cdn/2.mp3'/></item>";
                 "<item><title>The Magnus Protocol 1</title><enclosure url='http://cdn/p1.mp3'/></item></channel></rss>"]
                0%Z eq_refl eq_refl) as [_ Hdone].
    apply (Hdone [mk_EpisodeInfo "MAG 2" "http://cdn/2.mp3" 2]
                 [mk_EpisodeInfo "The Magnus Protocol 1" "http://cdn/p1.mp3" 1]).
    + reflexivity.
    + vm_compute. reflexivity.
    + vm_compute. reflexivity.
Defined.

(** ** The sequencer: [std::sort] by [episodeNumber] *)

Lemma by_episodeNumber_asym (a b : EpisodeInfo) :
  by_episodeNumber a b = true -> by_episodeNumber b a = false.
Proof. unfold by_episodeNumber. lia. Qed.

Lemma by_episodeNumber_negtrans (a b c : EpisodeInfo) :
  by_episodeNumber a b = false -> by_episodeNumber b c = false ->
  by_episodeNumber a c = false.
Proof. unfold by_episodeNumber. lia. Qed.

Lemma ordered_by_episodeNumber (a b : EpisodeInfo) :
  ordered by_episodeNumber a b <-> (episodeNumber a <= episodeNumber b)%Z.
Proof. unfold ordered, by_episodeNumber. lia. Qed.

Lemma ascending_cons (a : EpisodeInfo) (l : list EpisodeInfo) :
  ascending (a :: l) -> ascending l.
Proof. intros Hasc i x y Hx Hy. by apply (Hasc (S i)). Qed.

Lemma ascending_ordered (l : list EpisodeInfo) :
  ascending l <-> StronglySorted (ordered by_episodeNumber) l.
Proof.
  split.
  - intros Hasc. apply Sorted_StronglySorted.
    { intros a b c. rewrite !ordered_by_episodeNumber. lia. }
    induction l as [|a l IH]; [constructor|].
    constructor; [by eapply IH, ascending_cons|].
    destruct l as [|b l]; constructor.
    apply ordered_by_episodeNumber. by apply (Hasc 0%nat).
  - intros Hs i a b Ha Hb. apply ordered_by_episodeNumber.
    apply (StronglySorted_lookup_lt _ _ i (S i) a b Hs Ha Hb). lia.
Qed.

Lemma std_sort_ordered_by_number (episodes : list EpisodeInfo) :
  StronglySorted (ordered by_episodeNumber) (sort by_episodeNumber episodes).
Proof.
  apply sort_ordered;
    [exact by_episodeNumber_asym|exact by_episodeNumber_negtrans].
Qed.

(** C3.  For every list of records, [std::sort] with the comparison of
    [main] returns (it is a total function: nothing can fail and the only
    effect is the new order) a permutation of the list in which every
    record is followed by one with an episode number that is not smaller;
    no order is required among records with equal numbers. *)
Theorem sort_by_episodeNumber (episodes : list EpisodeInfo) :
  sort by_episodeNumber episodes ≡ₚ episodes
  /\ forall (i : nat) (a b : EpisodeInfo),
       sort by_episodeNumber episodes !! i = Some a ->
       sort by_episodeNumber episodes !! S i = Some b ->
       (episodeNumber a <= episodeNumber b)%Z.
Proof.
  split; [apply sort_Permutation|].
  apply ascending_ordered, std_sort_ordered_by_number.
Qed.

Lemma sort_by_episodeNumber_witness :
  map episodeNumber
    (sort by_episodeNumber
       [mk_EpisodeInfo "MAG 101" "http://cdn/101.mp3" 101;
        mk_EpisodeInfo "MAG 12" "http://cdn/12.mp3" 12;
        mk_EpisodeInfo "MAG 7" "http://cdn/7.mp3" 7])
  = [7; 12; 101]%Z
  /\ (7 <= 12)%Z.
Proof.
  split; [vm_compute; reflexivity|].
  destruct (sort_by_episodeNumber
              [mk_EpisodeInfo "MAG 101" "http://cdn/101.mp3" 101;
               mk_EpisodeInfo "MAG 12" "http://cdn/12.mp3" 12;
               mk_EpisodeInfo "MAG 7" "http://cdn/7.mp3" 7]) as [_ Hasc].
  apply (Hasc 0%nat (mk_EpisodeInfo "MAG 7" "http://cdn/7.mp3" 7)
              (mk_EpisodeInfo "MAG 12" "http://cdn/12.mp3" 12));
    vm_compute; reflexivity.
Defined.

(** C8, as stated, fails: [seventeen] is already sorted, yet [std::sort]
    exchanges its two records with number 1 (the range is longer than
    [_S_threshold], so it is partitioned, and the partition swaps equal
    elements); sorting the result again exchanges them back, so that
    sorting twice does not give the order of sorting once. *)
Lemma sort_reorders_equal_numbers :
  ascending seventeen
  /\ map name (sort by_episodeNumber seventeen)
     = ["MAG 1 (remastered)"; "MAG 1"; "MAG 2"; "MAG 3"; "MAG 4"; "MAG 5";
        "MAG 6"; "MAG 7"; "MAG 8"; "MAG 9"; "MAG 10"; "MAG 11"; "MAG 12";
        "MAG 13"; "MAG 14"; "MAG 15"; "MAG 16"]
  /\ sort by_episodeNumber seventeen <> seventeen
  /\ sort by_episodeNumber (sort by_episodeNumber seventeen)
     <> sort by_episodeNumber seventeen.
Proof.
  split; [|split; [|split]].
  - apply ascending_ordered.
    apply Sorted_StronglySorted.
    { intros a b c. rewrite !ordered_by_episodeNumber. lia. }
    unfold seventeen. repeat constructor.
  - vm_compute. reflexivity.
  - intros Heq. apply (f_equal (fun l => map name l)) in Heq.
    vm_compute in Heq. discriminate.
  - intros Heq. apply (f_equal (fun l => map name l)) in Heq.
    vm_compute in Heq. discriminate.
Qed.

Lemma NoDup_fmap_eq {A B : Type} (f : A -> B) (l : list A) (x y : A) :
  NoDup (f <$> l) -> x ∈ l -> y ∈ l -> f x = f y -> x = y.
Proof.
  induction l as [|a l IH]; intros Hnd Hx Hy Hf; [by apply elem_of_nil in Hx|].
  rewrite fmap_cons in Hnd. apply NoDup_cons in Hnd as [Hnotin Hnd].
  apply elem_of_cons in Hx as [->|Hx]; apply elem_of_cons in Hy as [->|Hy].
  - done.
  - destruct Hnotin. rewrite Hf. by apply list_elem_of_fmap_2.
  - destruct Hnotin. rewrite <- Hf. by apply list_elem_of_fmap_2.
  - by apply IH.
Qed.

(** Two sorted arrangements of the same records show the same sequence of
    episode numbers. *)
Lemma ordered_numbers_unique (l1 l2 : list EpisodeInfo) :
  StronglySorted (ordered by_episodeNumber) l1 ->
  StronglySorted (ordered by_episodeNumber) l2 ->
  l1 ≡ₚ l2 ->
  episodeNumber <$> l1 = episodeNumber <$> l2.
Proof.
  intros Hs1 Hs2 Hperm.
  apply (StronglySorted_unique_strong Z.le).
  - intros. lia.
  - eapply StronglySorted_fmap; [|exact Hs1].
    intros a b. by rewrite ordered_by_episodeNumber.
  - eapply StronglySorted_fmap; [|exact Hs2].
    intros a b. by rewrite ordered_by_episodeNumber.
  - by apply fmap_Permutation.
Qed.

(** ... and they are the same list when no number occurs twice. *)
Lemma ordered_unique (l1 l2 : list EpisodeInfo) :
  NoDup (episodeNumber <$> l1) ->
  StronglySorted (ordered by_episodeNumber) l1 ->
  StronglySorted (ordered by_episodeNumber) l2 ->
  l1 ≡ₚ l2 ->
  l1 = l2.
Proof.
  intros Hnd Hs1 Hs2 Hperm.
  apply (StronglySorted_unique_strong (ordered by_episodeNumber)); try done.
  intros x1 x2 Hx1 Hx2. rewrite !ordered_by_episodeNumber. intros H12 H21.
  apply (NoDup_fmap_eq episodeNumber l1); [done|done| |lia].
  by rewrite Hperm.
Qed.

(** C8 (amended).  For every list of records, sorting an already sorted
    list, or sorting a second time, leaves the sequence of episode numbers
    as it is.  When no two records have the same episode number, or the
    list has at most 16 records, the records themselves stay in place: an
    already sorted list is returned unchanged, and sorting twice gives
    exactly the list that sorting once gives. *)
Theorem sort_idempotent (episodes : list EpisodeInfo) :
  (map episodeNumber (sort by_episodeNumber (sort by_episodeNumber episodes))
     = map episodeNumber (sort by_episodeNumber episodes)
   /\ (ascending episodes ->
       map episodeNumber (sort by_episodeNumber episodes)
       = map episodeNumber episodes))
  /\ (NoDup (map episodeNumber episodes) \/ (length episodes <= 16)%nat ->
      sort by_episodeNumber (sort by_episodeNumber episodes)
        = sort by_episodeNumber episodes
      /\ (ascending episodes -> sort by_episodeNumber episodes = episodes)).
Proof.
  pose proof (std_sort_ordered_by_number episodes) as Hs1.
  pose proof (std_sort_ordered_by_number (sort by_episodeNumber episodes)) as Hs2.
  pose proof (sort_Permutation by_episodeNumber episodes) as Hp1.
  pose proof (sort_Permutation by_episodeNumber (sort by_episodeNumber episodes)) as Hp2.
  split; [split|].
  - by apply ordered_numbers_unique.
  - intros Hasc. apply ordered_numbers_unique; [done| |done].
    by apply ascending_ordered.
  - intros [Hnd | Hlen]; split.
    + apply ordered_unique; try done.
      change (NoDup (episodeNumber <$> sort by_episodeNumber
                       (sort by_episodeNumber episodes))).
      by rewrite Hp2, Hp1.
    + intros Hasc. apply ordered_unique; try done.
      * change (NoDup (episodeNumber <$> sort by_episodeNumber episodes)).
        by rewrite Hp1.
      * by apply ascending_ordered.
    + apply sort_short_idempotent;
        [exact by_episodeNumber_asym|exact by_episodeNumber_negtrans|done].
    + intros Hasc. apply sort_short_id;
        [exact by_episodeNumber_asym|done|by apply ascending_ordered].
Qed.

Lemma sort_idempotent_witness :
  sort by_episodeNumber
    (sort by_episodeNumber
       [mk_EpisodeInfo "MAG 7" "http://cdn/7.mp3" 7;
        mk_EpisodeInfo "MAG 3" "http://cdn/3.mp3" 3;
        mk_EpisodeInfo "MAG 3 (live)" "http://cdn/3l.mp3" 3])
  = sort by_episodeNumber
      [mk_EpisodeInfo "MAG 7" "http://cdn/7.mp3" 7;
       mk_EpisodeInfo "MAG 3" "http://cdn/3.mp3" 3;
       mk_EpisodeInfo "MAG 3 (live)" "http://cdn/3l.mp3" 3].
Proof.
  destruct (sort_idempotent
              [mk_EpisodeInfo "MAG 7" "http://cdn/7.mp3" 7;
               mk_EpisodeInfo "MAG 3" "http://cdn/3.mp3" 3;
               mk_EpisodeInfo "MAG 3 (live)" "http://cdn/3l.mp3" 3])
    as [_ Hexact].
  destruct Hexact as [Htwice _]; [|exact Htwice].
  right. simpl. lia.
Defined.

(** ** The two patterns *)

Section Regex.
Variable icase : bool.
Implicit Types (r : regex_node) (s : list ascii) (m : sub_matches).

Lemma exec_seq_char c r c' s m k :
  exec icase (re_seq (re_char c) r) (c' :: s) m k
  = if Ascii.eqb (translate icase c') (translate icase c)
    then exec icase r s m k else None.
Proof. reflexivity. Qed.

Lemma exec_plus r s m k :
  exec icase (re_plus r) s m k
  = exec icase r s m (fun s1 m1 => exec icase (re_star r) s1 m1 k).
Proof. reflexivity. Qed.

Lemma exec_star_digit_cons d s m k :
  isdigit d = true ->
  exec icase (re_star re_digit) (d :: s) m k
  = match exec icase (re_star re_digit) s m k with
    | Some res => Some res
    | None => k (d :: s) m
    end.
Proof.
  intros Hd. cbn [exec length]. rewrite Hd.
  by rewrite (proj2 (Nat.ltb_lt (length s) (S (length s))) (Nat.lt_succ_diag_r _)).
Qed.

(** The greedy [\d*] takes a run of digits whole when the rest of the
    pattern accepts the end of the text. *)
Lemma exec_star_digits s m k res :
  Forall (fun c => isdigit c = true) s ->
  k [] m = Some res ->
  exec icase (re_star re_digit) s m k = Some res.
Proof.
  intros Hs Hk. induction Hs as [|d s Hd Hs IH]; [done|].
  by rewrite exec_star_digit_cons, IH.
Qed.

Lemma exec_group_digits s m :
  s <> [] ->
  Forall (fun c => isdigit c = true) s ->
  exec icase (re_group 1 (re_plus re_digit)) s m (fun _ m' => Some m')
  = Some ((1%nat, s) :: m).
Proof.
  intros Hne Hs. destruct Hs as [|d s Hd Hs]; [done|].
  cbn [exec]. rewrite Hd.
  change ((fix iterate (fuel : nat) s0 m0 {struct fuel} := _) (length s) s m)
    with (exec icase (re_star re_digit) s m
            (fun s' m' => Some ((1%nat, take (length (d :: s) - length s') (d :: s)) :: m'))).
  apply exec_star_digits; [done|].
  by rewrite Nat.sub_0_r, firstn_all.
Qed.

(** On the empty text a match consumes nothing: every sub-match it adds
    is empty. *)
Lemma exec_nil r m k res :
  exec icase r [] m k = Some res ->
  exists m',
    k [] m' = Some res
    /\ forall i s, sub_match i m' = Some s -> s = [] \/ sub_match i m = Some s.
Proof.
  revert m k. induction r as [c| | |r1 IH1 r2 IH2|r1 IH1 r2 IH2|r IH|r IH|index r IH];
    intros m k Hexec; cbn [exec length] in Hexec; try discriminate Hexec.
  - apply IH1 in Hexec as (m1 & Hexec & Hm1).
    apply IH2 in Hexec as (m2 & Hexec & Hm2).
    exists m2. split; [done|]. intros i s Hs.
    destruct (Hm2 i s Hs) as [?|Hs1]; [by left|by apply Hm1].
  - destruct (exec icase r1 [] m k) eqn:H1.
    + injection Hexec as ->. by apply IH1.
    + by apply IH2.
  - exists m. split; [done|]. by right.
  - apply IH in Hexec as (m1 & Hexec & Hm1). cbn [length] in Hexec.
    by exists m1.
  - apply IH in Hexec as (m1 & Hexec & Hm1). cbn [length Nat.sub take] in Hexec.
    exists ((index, []) :: m1). split; [done|]. intros i s. cbn [sub_match].
    destruct (index =? i)%nat; [intros [= <-]; by left|apply Hm1].
Qed.

Lemma search_nil r res :
  search icase r [] = Some res -> forall i s, sub_match i res = Some s -> s = [].
Proof.
  cbn [search]. intros Hsearch i s Hs.
  destruct (exec icase r [] [] (fun _ m => Some m)) as [res'|] eqn:Hexec;
    [|discriminate].
  injection Hsearch as ->.
  apply exec_nil in Hexec as (m' & [= ->] & Hm').
  by destruct (Hm' i s Hs).
Qed.

End Regex.

(** ** Captures that [std::stoi] does not convert to an episode number *)

(** The sentinel [-1] and the negative numbers: both items of
    [feed_of_signed] match [MAG (-\d+)], the first is dropped because its
    number is the sentinel, the second is kept with a negative number. *)
Lemma parseRssFeed_signed_capture :
  parseRssFeed FeedText.read_document pattern_signed feed_of_signed [] []
  = (inr [mk_EpisodeInfo "MAG -5" "http://cdn/b.mp3" (-5)], []).
Proof. vm_compute. reflexivity. Qed.

(** An item without [title] child has the empty name; when a pattern
    matches it, the first capture is empty and [std::stoi] throws
    [std::invalid_argument]. *)
Lemma parse_item_no_title (pattern_ : regex) (item : xml_node_struct)
    (episodes : list EpisodeInfo) (h : list event) :
  child (Some item) "title" = None ->
  matches pattern_ item = true ->
  parse_item pattern_ item episodes h = (inl (invalid_argument "stoi"), h).
Proof.
  intros Htitle Hmatch. rewrite parse_item_eq. unfold matches in Hmatch.
  assert (item_name item = EmptyString) as Hname
    by (unfold item_name; by rewrite Htitle).
  rewrite Hname in *. unfold regex_search in *. cbn [list_ascii_of_string] in *.
  destruct (search (re_icase pattern_) (re_node pattern_) []) as [res|] eqn:Hsearch;
    [|discriminate].
  cbn [option_map]. unfold str. cbn [sm_subs].
  destruct (sub_match 1 res) as [s|] eqn:Hs; [|reflexivity].
  by rewrite (search_nil _ _ _ Hsearch _ _ Hs).
Qed.

Lemma digits_value_nonneg (s : list ascii) (acc : Z) :
  (0 <= acc)%Z -> (0 <= digits_value acc s)%Z.
Proof.
  revert acc. induction s as [|c s IH]; intros acc Hacc; [done|].
  cbn [digits_value]. destruct (isdigit c) eqn:Hc; [|done].
  apply IH. unfold isdigit in Hc. apply andb_prop in Hc as [Hc _].
  apply Nat.leb_le in Hc. unfold digit_value. lia.
Qed.

Lemma stoi_numeral (ds : string) :
  numeral ds ->
  stoi ds = inr (digits_value 0 (list_ascii_of_string ds))
  /\ (0 <= digits_value 0 (list_ascii_of_string ds))%Z.
Proof.
  intros (Hne & Hdigits & Hmax).
  pose proof (digits_value_nonneg (list_ascii_of_string ds) 0 ltac:(done)) as Hpos.
  split; [|done]. unfold stoi.
  assert (strtol (list_ascii_of_string ds)
          = Some (digits_value 0 (list_ascii_of_string ds))) as ->.
  { destruct ds as [|d ds]; [done|]. cbn [list_ascii_of_string] in *.
    apply Forall_cons in Hdigits as [Hd _].
    destruct d as [[] [] [] [] [] [] [] []]; try discriminate Hd; reflexivity. }
  unfold INT_MIN.
  destruct (Z.leb_spec (-2147483648) (digits_value 0 (list_ascii_of_string ds)));
    [|lia].
  destruct (Z.leb_spec (digits_value 0 (list_ascii_of_string ds)) INT_MAX);
    [done|lia].
Qed.

Lemma numeral_chars (ds : string) :
  numeral ds ->
  list_ascii_of_string ds <> []
  /\ Forall (fun c => isdigit c = true) (list_ascii_of_string ds).
Proof.
  intros (Hne & Hdigits & _). split; [|done].
  by destruct ds.
Qed.

Local Open Scope string_scope.

(** ** Items without [enclosure] or without [title] *)

Lemma stoi_range (s : string) (n : Z) :
  stoi s = inr n -> (INT_MIN <= n <= INT_MAX)%Z.
Proof.
  unfold stoi. destruct (strtol _) as [v|]; [|done].
  destruct (Z.leb_spec INT_MIN v), (Z.leb_spec v INT_MAX); cbn [andb];
    intros [= <-]. lia.
Qed.

Lemma stoi_exceptions (s : string) (e : exception) :
  stoi s = inl e -> e = invalid_argument "stoi" \/ e = out_of_range "stoi".
Proof.
  unfold stoi. destruct (strtol _) as [v|]; [|intros [= <-]; by left].
  destruct ((INT_MIN <=? v)%Z && (v <=? INT_MAX)%Z); [done|].
  intros [= <-]. by right.
Qed.

Lemma converts_spec (pattern_ : regex) (items : list xml_node_struct) :
  forallb (converts pattern_) items = true ->
  forall item m, item ∈ items ->
    regex_search (item_name item) pattern_ = Some m ->
    exists n, stoi (str m 1) = inr n.
Proof.
  intros Hall item m Hin Hm.
  rewrite forallb_forall in Hall. apply list_elem_of_In, Hall in Hin.
  unfold converts in Hin. rewrite Hm in Hin.
  destruct (stoi (str m 1)); [done|eauto].
Qed.

Lemma parse_items_outcome (pattern_ : regex) (items : list xml_node_struct)
    (episodes : list EpisodeInfo) (h : list event) :
  (forallb (converts pattern_) items = true
   /\ parse_items pattern_ items episodes h
      = (inr (episodes ++ omap (episode_of pattern_) items)%list, h))
  \/ (exists before item after m e,
        items = (before ++ item :: after)%list
        /\ forallb (converts pattern_) before = true
        /\ regex_search (item_name item) pattern_ = Some m
        /\ stoi (str m 1) = inl e
        /\ parse_items pattern_ items episodes h = (inl e, h)).
Proof.
  destruct (forallb (converts pattern_) items) eqn:Hall.
  { left. split; [done|]. apply parse_items_episode_of. by apply converts_spec. }
  right. revert episodes. induction items as [|item items IH]; intros episodes; [done|].
  cbn [forallb] in Hall. destruct (converts pattern_ item) eqn:Hitem.
  - cbn [andb] in Hall. cbn [parse_items]. rewrite prog_bind_run.
    rewrite parse_item_episode_of.
    2:{ intros m Hm. unfold converts in Hitem. rewrite Hm in Hitem.
        destruct (stoi (str m 1)); [done|eauto]. }
    destruct (IH Hall (episodes ++ option_list (episode_of pattern_ item))%list)
      as (before & bad & after & m & e & -> & Hbefore & Hm & He & Hrun).
    exists (item :: before), bad, after, m, e.
    repeat split; try done. cbn [forallb]. by rewrite Hitem.
  - unfold converts in Hitem.
    destruct (regex_search (item_name item) pattern_) as [m|] eqn:Hm; [|done].
    destruct (stoi (str m 1)) as [e|n] eqn:He; [|done].
    exists [], item, items, m, e. repeat split; try done.
    cbn [parse_items]. rewrite prog_bind_run, parse_item_eq, Hm, He. done.
Qed.

Lemma episode_of_facts (pattern_ : regex) (item : xml_node_struct) (r : EpisodeInfo) :
  episode_of pattern_ item = Some r ->
  name r = item_name item /\ link r = item_link item
  /\ episodeNumber r <> (-1)%Z
  /\ (INT_MIN <= episodeNumber r <= INT_MAX)%Z
  /\ exists m, regex_search (item_name item) pattern_ = Some m
               /\ stoi (str m 1) = inr (episodeNumber r).
Proof.
  unfold episode_of.
  destruct (regex_search (item_name item) pattern_) as [m|]; [|done].
  destruct (stoi (str m 1)) as [e|n] eqn:Hn; [done|].
  destruct (Z.eqb_spec n (-1)); [done|]. intros [= <-]. cbn.
  repeat split; try done; try by apply (stoi_range _ _ Hn). eauto.
Qed.

(** C10, as stated, fails: the only item of [feed_without_title] has no
    [title] child, the pattern matches the empty title that is read for it,
    and the parser fails: the capture is empty and [std::stoi] throws
    [std::invalid_argument].  With a title the same item is parsed. *)
Lemma parseRssFeed_missing_title_fails :
  FeedText.read_document feed_without_title = status_ok document_without_title
  /\ items_of document_without_title = [item_without_title]
  /\ child (Some item_without_title) "title" = None
  /\ matches pattern_digits item_without_title = true
  /\ parseRssFeed FeedText.read_document pattern_digits feed_without_title [] []
     = (inl (invalid_argument "stoi"), [])
  /\ parseRssFeed FeedText.read_document pattern_digits feed_with_title [] []
     = (inr [mk_EpisodeInfo "12" "http://cdn/x.mp3" 12], []).
Proof. vm_compute. done. Qed.

(** C10 (amended).  In a feed that pugixml accepts, for every pattern:
    - an item without [enclosure] child, or whose [enclosure] has no [url]
      attribute, whose title matches with a capture that [std::stoi]
      converts to an [int] other than [-1], is included in the result with
      link equal to the empty string, in every parse in which [std::stoi]
      converts all captures (the parse then returns normally);
    - an item without [title] child is treated as an item with the empty
      title: when the pattern does not match the empty text, the loop body
      skips it without failure; when the pattern matches the empty text,
      the capture is empty, [std::stoi] throws [std::invalid_argument] in
      the loop body, and the parse of the feed fails, with
      [std::invalid_argument] or [std::out_of_range];
    - neither pattern of [main] matches the empty text. *)
Theorem parseRssFeed_missing_enclosure
    (load_string : string -> xml_parse_result) (pattern_ : regex)
    (xmlData : string) (doc : xml_document) (episodes : list EpisodeInfo)
    (h : list event) (item : xml_node_struct) :
  load_string xmlData = status_ok doc ->
  item ∈ items_of doc ->
  (child (Some item) "enclosure" = None
     \/ attribute (child (Some item) "enclosure") "url" = None ->
   forallb (converts pattern_) (items_of doc) = true ->
   forall m n,
     regex_search (item_name item) pattern_ = Some m ->
     stoi (str m 1) = inr n ->
     n <> (-1)%Z ->
     exists result,
       parseRssFeed load_string pattern_ xmlData episodes h = (inr result, h)
       /\ mk_EpisodeInfo (item_name item) EmptyString n ∈ result)
  /\ (child (Some item) "title" = None ->
      (regex_search EmptyString pattern_ = None ->
       forall episodes' h',
         parse_item pattern_ item episodes' h' = (inr episodes', h'))
      /\ (regex_search EmptyString pattern_ <> None ->
          (forall episodes' h',
             parse_item pattern_ item episodes' h'
             = (inl (invalid_argument "stoi"), h'))
          /\ exists e,
               parseRssFeed load_string pattern_ xmlData episodes h = (inl e, h)
               /\ (e = invalid_argument "stoi" \/ e = out_of_range "stoi")))
  /\ regex_search EmptyString pattern = None
  /\ regex_search EmptyString pattern2 = None.
Proof.
  intros Hdoc Hin. split; [|split; [|by vm_compute]].
  - intros Hmissing Hall m n Hm Hn Hne.
    assert (item_link item = EmptyString) as Hlink.
    { unfold item_link. by destruct Hmissing as [-> | ->]. }
    exists (episodes ++ omap (episode_of pattern_) (items_of doc))%list. split.
    + unfold parseRssFeed. rewrite Hdoc.
      by apply parse_items_episode_of, converts_spec.
    + apply elem_of_app. right. apply list_elem_of_omap. exists item.
      split; [done|]. unfold episode_of. rewrite Hm, Hn, Hlink.
      by destruct (Z.eqb_spec n (-1)).
  - intros Htitle.
    assert (item_name item = EmptyString) as Hname
      by (unfold item_name; by rewrite Htitle).
    split.
    { intros Hno episodes' h'. by rewrite parse_item_eq, Hname, Hno. }
    intros Hyes.
    assert (matches pattern_ item = true) as Hmatch.
    { unfold matches. rewrite Hname.
      by destruct (regex_search EmptyString pattern_). }
    split.
    { intros episodes' h'. by apply parse_item_no_title. }
    assert (converts pattern_ item = false) as Hitem.
    { pose proof (parse_item_no_title pattern_ item [] [] Htitle Hmatch) as Hrun.
      rewrite parse_item_eq in Hrun. unfold converts.
      destruct (regex_search (item_name item) pattern_) as [m|]; [|done].
      by destruct (stoi (str m 1)). }
    unfold parseRssFeed. rewrite Hdoc. fold (items_of doc).
    destruct (parse_items_outcome pattern_ (items_of doc) episodes h)
      as [[Hall _] | (before & bad & after & m & e & _ & _ & _ & He & Hrun)].
    + rewrite forallb_forall in Hall. apply list_elem_of_In, Hall in Hin.
      by rewrite Hin in Hitem.
    + exists e. split; [exact Hrun|by apply (stoi_exceptions (str m 1))].
Qed.

Lemma parseRssFeed_missing_enclosure_witness :
  (exists result,
     parseRssFeed FeedText.read_document pattern feed_of_missing_children [] []
     = (inr result, [])
     /\ mk_EpisodeInfo "MAG 8" EmptyString 8 ∈ result)
  /\ (exists result,
        parseRssFeed FeedText.read_document pattern feed_of_missing_children [] []
        = (inr result, [])
        /\ mk_EpisodeInfo "MAG 9" EmptyString 9 ∈ result)
  /\ parse_item pattern item_without_title [] [] = (inr [], [])
  /\ parse_item pattern_digits item_without_title [] []
     = (inl (invalid_argument "stoi"), [])
  /\ exists e,
       parseRssFeed FeedText.read_document pattern_digits feed_without_title [] []
       = (inl e, [])
       /\ (e = invalid_argument "stoi" \/ e = out_of_range "stoi").
Proof.
  destruct (parseRssFeed_missing_enclosure FeedText.read_document pattern
              feed_of_missing_children document_of_missing_children [] []
              item_without_enclosure)
    as (Hincluded & _); [reflexivity|by left|].
  destruct (parseRssFeed_missing_enclosure FeedText.read_document pattern
              feed_of_missing_children document_of_missing_children [] []
              item_without_url)
    as (Hincluded' & _); [reflexivity|by right; left|].
  destruct (parseRssFeed_missing_enclosure FeedText.read_document pattern
              feed_of_missing_children document_of_missing_children [] []
              item_without_title)
    as (_ & Hskipped & Hpattern & _); [reflexivity|by right; right; left|].
  destruct (parseRssFeed_missing_enclosure FeedText.read_document pattern_digits
              feed_without_title document_without_title [] []
              item_without_title)
    as (_ & Hfails & _); [reflexivity|by left|].
  split; [|split; [|split; [|split]]].
  - apply (Hincluded (or_introl eq_refl) eq_refl
             (mk_smatch [(1%nat, ["8"%char])]) 8%Z); [reflexivity..|discriminate].
  - apply (Hincluded' (or_intror eq_refl) eq_refl
             (mk_smatch [(1%nat, ["9"%char])]) 9%Z); [reflexivity..|discriminate].
  - by apply Hskipped.
  - apply Hfails; [reflexivity|discriminate].
  - apply Hfails; [reflexivity|discriminate].
Defined.

(** ** The two series *)

Section RegexLiteral.
Local Open Scope list_scope.
Variable icase : bool.
Implicit Types (r : regex_node) (s : list ascii) (m : sub_matches).

Lemma exec_literal lit p s m k r :
  map (translate icase) p = map (translate icase) lit ->
  exec icase (re_concat (map re_char lit) r) (p ++ s) m k = exec icase r s m k.
Proof.
  revert p. induction lit as [|c lit IH]; intros p Hp.
  { by destruct p. }
  destruct p as [|c' p]; [done|]. injection Hp as Hc Hp.
  cbn [map re_concat app]. rewrite exec_seq_char, Hc, Ascii.eqb_refl.
  by apply IH.
Qed.

Lemma exec_star_digits_rest s rest m k res :
  Forall (fun c => isdigit c = true) s ->
  starts_with_digit rest = false ->
  k rest m = Some res ->
  exec icase (re_star re_digit) (s ++ rest) m k = Some res.
Proof.
  intros Hs Hrest Hk. induction Hs as [|d s Hd Hs IH].
  - destruct rest as [|c rest]; [done|].
    cbn [starts_with_digit] in Hrest. cbn [app exec length]. by rewrite Hrest.
  - cbn [app]. by rewrite exec_star_digit_cons, IH.
Qed.

Lemma exec_group_digits_rest s rest m :
  s <> [] ->
  Forall (fun c => isdigit c = true) s ->
  starts_with_digit rest = false ->
  exec icase (re_group 1 (re_plus re_digit)) (s ++ rest) m (fun _ m' => Some m')
  = Some ((1%nat, s) :: m).
Proof.
  intros Hne Hs Hrest. destruct Hs as [|d s Hd Hs]; [done|].
  cbn [exec app]. rewrite Hd.
  change ((fix iterate (fuel : nat) s0 m0 {struct fuel} := _)
            (length (s ++ rest)) (s ++ rest) m)
    with (exec icase (re_star re_digit) (s ++ rest) m
            (fun s' m' =>
               Some ((1%nat, take (length (d :: s ++ rest) - length s')
                               (d :: s ++ rest)) :: m'))).
  apply exec_star_digits_rest; [done..|].
  do 3 f_equal. cbn [length]. rewrite length_app.
  replace (S (length s + length rest) - length rest)%nat with (length (d :: s))
    by (cbn [length]; lia).
  exact (take_app_length (d :: s) rest).
Qed.

Lemma search_exec r s res :
  exec icase r s [] (fun _ m => Some m) = Some res -> search icase r s = Some res.
Proof. intros Hexec. destruct s; cbn [search]; by rewrite Hexec. Qed.
End RegexLiteral.

Lemma list_ascii_of_string_app (a b : string) :
  list_ascii_of_string (a ++ b)
  = (list_ascii_of_string a ++ list_ascii_of_string b)%list.
Proof. induction a as [|c a IH]; [done|]. cbn. by rewrite IH. Qed.

Lemma translate_tolower (p lit : list ascii) :
  map tolower p = map tolower lit -> map (translate true) p = map (translate true) lit.
Proof. done. Qed.

Section RegexInversion.
Local Open Scope list_scope.
Variable icase : bool.
Implicit Types (r : regex_node) (s : list ascii) (m : sub_matches).

Lemma exec_literal_inv lit r s m k res :
  exec icase (re_concat (map re_char lit) r) s m k = Some res ->
  exists p s',
    s = p ++ s'
    /\ map (translate icase) p = map (translate icase) lit
    /\ exec icase r s' m k = Some res.
Proof.
  revert s. induction lit as [|c lit IH]; intros s Hexec.
  { by exists [], s. }
  cbn [map re_concat] in Hexec. destruct s as [|c' s]; [done|].
  rewrite exec_seq_char in Hexec.
  destruct (Ascii.eqb_spec (translate icase c') (translate icase c)) as [Hc|];
    [|done].
  apply IH in Hexec as (p & s' & -> & Hp & Hexec).
  exists (c' :: p), s'. cbn [map]. by rewrite Hc, Hp.
Qed.

(** The greedy [\d*] in front of a continuation that accepts everything
    takes the whole run of digits. *)
Lemma exec_star_digits_greedy s m (g : list ascii -> sub_matches -> sub_matches) :
  exists ds rest,
    s = ds ++ rest
    /\ Forall (fun c => isdigit c = true) ds
    /\ starts_with_digit rest = false
    /\ exec icase (re_star re_digit) s m (fun s' m' => Some (g s' m'))
       = Some (g rest m).
Proof.
  induction s as [|c s (ds & rest & -> & Hds & Hrest & IH)].
  { by exists [], []. }
  destruct (isdigit c) eqn:Hc.
  - exists (c :: ds), rest. rewrite exec_star_digit_cons, IH by done.
    repeat split; try done. by constructor.
  - exists [], (c :: ds ++ rest). cbn [exec length starts_with_digit app].
    by rewrite Hc.
Qed.

Lemma exec_group_digits_inv s m res :
  exec icase (re_group 1 (re_plus re_digit)) s m (fun _ m' => Some m') = Some res ->
  exists ds rest,
    s = ds ++ rest
    /\ ds <> []
    /\ Forall (fun c => isdigit c = true) ds
    /\ starts_with_digit rest = false
    /\ res = (1%nat, ds) :: m.
Proof.
  destruct s as [|d s]; [done|]. cbn [exec]. destruct (isdigit d) eqn:Hd; [|done].
  change ((fix iterate (fuel : nat) s0 m0 {struct fuel} := _) (length s) s m)
    with (exec icase (re_star re_digit) s m
            (fun s' m' =>
               Some ((1%nat, take (length (d :: s) - length s') (d :: s)) :: m'))).
  destruct (exec_star_digits_greedy s m
              (fun s' m' => (1%nat, take (length (d :: s) - length s') (d :: s)) :: m'))
    as (ds & rest & -> & Hds & Hrest & Hexec).
  intros Hres. pose proof (eq_trans (eq_sym Hres) Hexec) as [= ->].
  exists (d :: ds), rest. repeat split; try done.
  { by constructor. }
  do 2 f_equal. cbn [length]. rewrite length_app.
  replace (S (length ds + length rest) - length rest)%nat with (length (d :: ds))
    by (cbn [length]; lia).
  exact (take_app_length (d :: ds) rest).
Qed.

Lemma search_inv r s res :
  search icase r s = Some res ->
  exists pre s', s = pre ++ s' /\ exec icase r s' [] (fun _ m => Some m) = Some res.
Proof.
  induction s as [|c s IH]; cbn [search];
    destruct (exec icase r _ [] (fun _ m => Some m)) as [res'|] eqn:Hexec;
    try done.
  - intros [= <-]. by exists [], [].
  - intros [= <-]. by exists [], (c :: s).
  - intros (pre & s' & -> & Hs')%IH. by exists (c :: pre), s'.
Qed.

(** A match of [<literal>(\d+)]: somewhere in the text stands the
    literal, followed by a run of digits that is taken whole as the first
    capture. *)
Lemma search_literal_digits lit s res :
  search icase (re_concat (map re_char lit) (re_group 1 (re_plus re_digit))) s
  = Some res ->
  exists pre p ds rest,
    s = pre ++ p ++ ds ++ rest
    /\ map (translate icase) p = map (translate icase) lit
    /\ ds <> []
    /\ Forall (fun c => isdigit c = true) ds
    /\ starts_with_digit rest = false
    /\ res = [(1%nat, ds)].
Proof.
  intros (pre & s1 & -> & Hexec)%search_inv.
  apply exec_literal_inv in Hexec as (p & s2 & -> & Hp & Hexec).
  apply exec_group_digits_inv in Hexec as (ds & rest & -> & Hne & Hds & Hrest & ->).
  by exists pre, p, ds, rest.
Qed.
End RegexInversion.

(** [std::stoi] on a run of digits: the value of the run, or
    [std::out_of_range] when it does not fit an [int]. *)
Lemma stoi_digits (ds : list ascii) :
  ds <> [] ->
  Forall (fun c => isdigit c = true) ds ->
  (0 <= digits_value 0 ds)%Z
  /\ stoi (string_of_list_ascii ds)
     = if (digits_value 0 ds <=? INT_MAX)%Z then inr (digits_value 0 ds)
       else inl (out_of_range "stoi").
Proof.
  intros Hne Hdigits.
  pose proof (digits_value_nonneg ds 0 ltac:(done)) as Hpos.
  split; [done|]. unfold stoi. rewrite list_ascii_of_string_of_list_ascii.
  assert (strtol ds = Some (digits_value 0 ds)) as ->.
  { destruct ds as [|d ds]; [done|].
    apply Forall_cons in Hdigits as [Hd _].
    destruct d as [[] [] [] [] [] [] [] []]; try discriminate Hd; reflexivity. }
  unfold INT_MIN.
  by destruct (Z.leb_spec (-2147483648) (digits_value 0 ds)); [|lia].
Qed.

(** Two characters have the same small letter exactly when they have the
    same capital. *)
Lemma tolower_capital (a b : ascii) :
  tolower a = tolower b <-> capital a = capital b.
Proof.
  assert (forallb (fun i =>
            forallb (fun j =>
              Bool.eqb
                (Ascii.eqb (tolower (ascii_of_nat i)) (tolower (ascii_of_nat j)))
                (Ascii.eqb (capital (ascii_of_nat i)) (capital (ascii_of_nat j))))
              (seq 0 256)) (seq 0 256) = true) as Hall
    by (vm_compute; reflexivity).
  assert (forall c, In (nat_of_ascii c) (seq 0 256)) as Hin.
  { intros c. apply in_seq. pose proof (nat_ascii_bounded c). lia. }
  rewrite forallb_forall in Hall. specialize (Hall _ (Hin a)).
  rewrite forallb_forall in Hall. specialize (Hall _ (Hin b)).
  rewrite !ascii_nat_embedding in Hall. apply Bool.eqb_prop in Hall.
  rewrite <- !Ascii.eqb_eq. by rewrite Hall.
Qed.

Section RegexSearch.
Local Open Scope list_scope.
Implicit Types (r : regex_node) (s : list ascii) (m : sub_matches).

Lemma same_ignoring_case_translate (p q : list ascii) :
  same_ignoring_case p q <-> map (translate true) p = map (translate true) q.
Proof.
  unfold same_ignoring_case, translate. revert q.
  induction p as [|a p IH]; intros [|b q]; cbn [map]; try done.
  split; intros [= Hab Hpq]; f_equal.
  - by apply tolower_capital.
  - by apply IH.
  - by apply tolower_capital.
  - by apply IH.
Qed.

(** A match that starts further on in the text is not missed. *)
Lemma search_complete (icase : bool) r pre s res :
  exec icase r s [] (fun _ m => Some m) = Some res ->
  exists res', search icase r (pre ++ s) = Some res'.
Proof.
  intros Hexec. induction pre as [|c pre [res' IH]]; cbn [app].
  - exists res. by apply search_exec.
  - cbn [search].
    destruct (exec icase r (c :: pre ++ s) [] (fun _ m => Some m)); eauto.
Qed.

Lemma exec_group_digit (icase : bool) d s m :
  isdigit d = true ->
  exists res,
    exec icase (re_group 1 (re_plus re_digit)) (d :: s) m (fun _ m' => Some m')
    = Some res.
Proof.
  intros Hd. cbn [exec]. rewrite Hd.
  destruct (exec_star_digits_greedy icase s m
              (fun s' m' => (1%nat, take (length (d :: s) - length s') (d :: s)) :: m'))
    as (ds & rest & _ & _ & _ & Hexec).
  eexists. exact Hexec.
Qed.
End RegexSearch.

Lemma pattern_of_node (series : string) (pattern_ : regex) :
  pattern_of series pattern_ ->
  re_icase pattern_ = true
  /\ re_node pattern_
     = re_concat (map re_char (list_ascii_of_string series ++ [" "%char])%list)
         (re_group 1 (re_plus re_digit)).
Proof. by intros [[-> ->] | [-> ->]]. Qed.

(** What a match of the pattern of a series tells about the title. *)
Lemma regex_search_names (series : string) (pattern_ : regex) (title : string)
    (m : smatch) :
  pattern_of series pattern_ ->
  regex_search title pattern_ = Some m ->
  exists ds,
    ds <> []
    /\ Forall (fun c => isdigit c = true) ds
    /\ m = mk_smatch [(1%nat, ds)]
    /\ names_episode series title (digits_value 0 ds).
Proof.
  intros [Hicase Hnode]%pattern_of_node Hm. unfold regex_search in Hm.
  rewrite Hicase, Hnode in Hm.
  destruct (search true _ (list_ascii_of_string title)) as [res|] eqn:Hsearch;
    [|done].
  injection Hm as <-.
  apply search_literal_digits
    in Hsearch as (pre & p & ds & rest & Htitle & Hp & Hne & Hds & Hrest & ->).
  exists ds. split; [done|]. split; [done|]. split; [done|].
  exists pre, p, ds, rest. split; [done|].
  split; [by apply same_ignoring_case_translate|done].
Qed.

(** A title that carries the name of a series is matched. *)
Lemma carries_regex_search (series : string) (pattern_ : regex) (title : string) :
  pattern_of series pattern_ ->
  carries series title ->
  exists m, regex_search title pattern_ = Some m.
Proof.
  intros [Hicase Hnode]%pattern_of_node (pre & p & d & rest & Htitle & Hp & Hd).
  unfold regex_search. rewrite Hicase, Hnode, Htitle.
  destruct (exec_group_digit true d rest [] Hd) as [res Hexec].
  destruct (search_complete true
              (re_concat (map re_char (list_ascii_of_string series ++ [" "%char])%list)
                 (re_group 1 (re_plus re_digit)))
              pre (p ++ d :: rest)%list res) as [res' ->]; [|by eexists].
  rewrite exec_literal; [done|]. by apply same_ignoring_case_translate.
Qed.

Lemma names_episode_carries (series title : string) (n : Z) :
  names_episode series title n -> carries series title.
Proof.
  intros (pre & p & ds & rest & Htitle & Hp & Hne & Hds & _).
  destruct Hds as [|d ds Hd Hds]; [done|].
  by exists pre, p, d, (ds ++ rest)%list.
Qed.

Lemma episode_of_names (series : string) (pattern_ : regex)
    (item : xml_node_struct) (e : EpisodeInfo) :
  pattern_of series pattern_ ->
  episode_of pattern_ item = Some e ->
  name e = item_name item
  /\ names_episode series (item_name item) (episodeNumber e).
Proof.
  intros Hpattern. unfold episode_of.
  destruct (regex_search (item_name item) pattern_) as [m|] eqn:Hm; [|done].
  destruct (regex_search_names _ _ _ _ Hpattern Hm) as (ds & Hne & Hds & -> & Hnames).
  destruct (stoi_digits ds Hne Hds) as [Hpos Hstoi].
  unfold str. cbn [sm_subs sub_match Nat.eqb]. rewrite Hstoi.
  destruct (Z.leb_spec (digits_value 0 ds) INT_MAX); [|done].
  destruct (Z.eqb_spec (digits_value 0 ds) (-1)); [lia|].
  by intros [= <-].
Qed.

Lemma carries_episode_of (series : string) (pattern_ : regex)
    (item : xml_node_struct) :
  pattern_of series pattern_ ->
  converts pattern_ item = true ->
  carries series (item_name item) ->
  exists n,
    episode_of pattern_ item
    = Some (mk_EpisodeInfo (item_name item) (item_link item) n).
Proof.
  intros Hpattern Hconv Hcarries.
  destruct (carries_regex_search _ _ _ Hpattern Hcarries) as [m Hm].
  destruct (regex_search_names _ _ _ _ Hpattern Hm) as (ds & Hne & Hds & -> & _).
  destruct (stoi_digits ds Hne Hds) as [Hpos Hstoi].
  unfold converts in Hconv. unfold episode_of. rewrite Hm in *.
  unfold str in *. cbn [sm_subs sub_match Nat.eqb] in *. rewrite Hstoi in *.
  destruct (Z.leb_spec (digits_value 0 ds) INT_MAX); [|done].
  exists (digits_value 0 ds).
  by destruct (Z.eqb_spec (digits_value 0 ds) (-1)); [lia|].
Qed.

(** C9, as stated, fails: the last title of [feed_of_crossover] carries
    the names of both series, and its item is in both lists, as episode 160
    of the first and as episode 2 of the second. *)
Lemma two_series_shared_item :
  parseRssFeed FeedText.read_document pattern feed_of_crossover [] []
  = (inr [mk_EpisodeInfo "MAG 3" "http://cdn/3.mp3" 3;
          mk_EpisodeInfo "The Magnus Protocol 2 - MAG 160 revisited"
            "http://cdn/p2.mp3" 160], [])
  /\ parseRssFeed FeedText.read_document pattern2 feed_of_crossover [] []
     = (inr [mk_EpisodeInfo "The Magnus Protocol 1" "http://cdn/p1.mp3" 1;
             mk_EpisodeInfo "The Magnus Protocol 2 - MAG 160 revisited"
               "http://cdn/p2.mp3" 2], [])
  /\ map name
       (sort by_episodeNumber
          [mk_EpisodeInfo "MAG 3" "http://cdn/3.mp3" 3;
           mk_EpisodeInfo "The Magnus Protocol 2 - MAG 160 revisited"
             "http://cdn/p2.mp3" 160])
     = ["MAG 3"; "The Magnus Protocol 2 - MAG 160 revisited"]
  /\ map name
       (sort by_episodeNumber
          [mk_EpisodeInfo "The Magnus Protocol 1" "http://cdn/p1.mp3" 1;
           mk_EpisodeInfo "The Magnus Protocol 2 - MAG 160 revisited"
             "http://cdn/p2.mp3" 2])
     = ["The Magnus Protocol 1"; "The Magnus Protocol 2 - MAG 160 revisited"].
Proof. vm_compute. done. Qed.

(** C9 (amended).  For every feed that pugixml accepts and in which
    [std::stoi] converts every captured number, the two passes of [main],
    with the patterns [MAG (\d+)] and [The Magnus Protocol (\d+)], both
    case-insensitive, each return normally, whatever happened before, and
    once sorted give two lists in ascending order of episode number such
    that
    - every record of the first list has a title that names an episode of
      [MAG] (the name and a space, in any letter case, anywhere in the
      title, then a run of digits) and has the value of that run as its
      number; likewise the second list for [The Magnus Protocol];
    - every item whose title carries the name of a series, in any letter
      case, is in the list of that series, with its title and its link;
    - a title is in both lists only if it carries the names of both
      series; so when no title of the feed carries both names, no item is
      in both lists. *)
Theorem two_series
    (load_string : string -> xml_parse_result) (xmlData : string)
    (doc : xml_document) (h h2 : list event) :
  load_string xmlData = status_ok doc ->
  forallb (converts pattern) (items_of doc) = true ->
  forallb (converts pattern2) (items_of doc) = true ->
  exists episodes episodes2,
    parseRssFeed load_string pattern xmlData [] h = (inr episodes, h)
    /\ parseRssFeed load_string pattern2 xmlData [] h2 = (inr episodes2, h2)
    /\ ascending (sort by_episodeNumber episodes)
    /\ ascending (sort by_episodeNumber episodes2)
    /\ (forall e, e ∈ sort by_episodeNumber episodes ->
          names_episode "MAG" (name e) (episodeNumber e))
    /\ (forall e, e ∈ sort by_episodeNumber episodes2 ->
          names_episode "The Magnus Protocol" (name e) (episodeNumber e))
    /\ (forall item, item ∈ items_of doc ->
          carries "MAG" (item_name item) ->
          exists n, mk_EpisodeInfo (item_name item) (item_link item) n
                      ∈ sort by_episodeNumber episodes)
    /\ (forall item, item ∈ items_of doc ->
          carries "The Magnus Protocol" (item_name item) ->
          exists n, mk_EpisodeInfo (item_name item) (item_link item) n
                      ∈ sort by_episodeNumber episodes2)
    /\ (forall e e2,
          e ∈ sort by_episodeNumber episodes ->
          e2 ∈ sort by_episodeNumber episodes2 ->
          name e = name e2 ->
          carries "MAG" (name e) /\ carries "The Magnus Protocol" (name e))
    /\ ((forall item, item ∈ items_of doc ->
           ~ (carries "MAG" (item_name item)
              /\ carries "The Magnus Protocol" (item_name item))) ->
        forall e e2,
          e ∈ sort by_episodeNumber episodes ->
          e2 ∈ sort by_episodeNumber episodes2 ->
          name e <> name e2).
Proof.
  intros Hdoc Hconv Hconv2.
  assert (forall series pattern_,
            pattern_of series pattern_ ->
            forallb (converts pattern_) (items_of doc) = true ->
            (forall h', parseRssFeed load_string pattern_ xmlData [] h'
                        = (inr (omap (episode_of pattern_) (items_of doc)), h'))
            /\ (forall e,
                  e ∈ sort by_episodeNumber (omap (episode_of pattern_) (items_of doc)) ->
                  names_episode series (name e) (episodeNumber e)
                  /\ exists item, item ∈ items_of doc /\ name e = item_name item)
            /\ (forall item, item ∈ items_of doc ->
                  carries series (item_name item) ->
                  exists n,
                    mk_EpisodeInfo (item_name item) (item_link item) n
                      ∈ sort by_episodeNumber
                          (omap (episode_of pattern_) (items_of doc)))) as Hpass.
  { intros series pattern_ Hpattern Hall. split; [|split].
    - intros h'. unfold parseRssFeed. rewrite Hdoc. fold (items_of doc).
      by rewrite parse_items_episode_of by by apply converts_spec.
    - intros e He. rewrite sort_Permutation in He.
      apply list_elem_of_omap in He as (item & Hin & He).
      destruct (episode_of_names _ _ _ _ Hpattern He) as [Hname Hnames].
      rewrite Hname. split; [done|]. by exists item.
    - intros item Hin Hcarries.
      destruct (carries_episode_of series pattern_ item Hpattern) as [n Hn];
        [|done|].
      { rewrite forallb_forall in Hall. by apply Hall, list_elem_of_In. }
      exists n. rewrite sort_Permutation. apply list_elem_of_omap. by exists item. }
  destruct (Hpass "MAG" pattern) as (Hrun & Honly & Hevery); [by left|done|].
  destruct (Hpass "The Magnus Protocol" pattern2) as (Hrun2 & Honly2 & Hevery2);
    [by right|done|].
  exists (omap (episode_of pattern) (items_of doc)),
         (omap (episode_of pattern2) (items_of doc)).
  split; [apply Hrun|]. split; [apply Hrun2|].
  split; [apply ascending_ordered, std_sort_ordered_by_number|].
  split; [apply ascending_ordered, std_sort_ordered_by_number|].
  split; [intros e He; by destruct (Honly e He)|].
  split; [intros e He; by destruct (Honly2 e He)|].
  split; [done|]. split; [done|]. split.
  - intros e e2 He He2 Heq.
    destruct (Honly e He) as [Hnames _]. destruct (Honly2 e2 He2) as [Hnames2 _].
    rewrite <- Heq in Hnames2.
    split; by eapply names_episode_carries.
  - intros Hnone e e2 He He2 Heq.
    destruct (Honly e He) as (Hnames & item & Hin & Hname).
    destruct (Honly2 e2 He2) as [Hnames2 _].
    rewrite <- Heq in Hnames2. apply (Hnone item Hin). rewrite <- Hname.
    split; by eapply names_episode_carries.
Qed.

Lemma two_series_witness :
  exists episodes episodes2,
    parseRssFeed FeedText.read_document pattern feed_of_two_series [] []
      = (inr episodes, [])
    /\ parseRssFeed FeedText.read_document pattern2 feed_of_two_series [] []
       = (inr episodes2, [])
    /\ map name (sort by_episodeNumber episodes) = ["mag 7"; "MAG 12 - First Aid"]
    /\ map name (sort by_episodeNumber episodes2)
       = ["The Magnus Protocol 1 - First Shift"; "THE MAGNUS PROTOCOL 2"]
    /\ (forall e e2,
          e ∈ sort by_episodeNumber episodes ->
          e2 ∈ sort by_episodeNumber episodes2 ->
          name e <> name e2).
Proof.
  destruct (two_series FeedText.read_document feed_of_two_series
              document_of_two_series [] [])
    as (episodes & episodes2 & Hparse & Hparse2 & _ & _ & _ & _ & _ & _ & _ & Hapart);
    [reflexivity..|].
  exists episodes, episodes2.
  split; [exact Hparse|]. split; [exact Hparse2|].
  split; [|split].
  - vm_compute in Hparse. injection Hparse as <-. vm_compute. reflexivity.
  - vm_compute in Hparse2. injection Hparse2 as <-. vm_compute. reflexivity.
  - apply Hapart. intros item Hin [Hmag Hprotocol].
    destruct (carries_regex_search "MAG" pattern _
                (or_introl (conj eq_refl eq_refl)) Hmag) as [m Hm].
    destruct (carries_regex_search "The Magnus Protocol" pattern2 _
                (or_intror (conj eq_refl eq_refl)) Hprotocol) as [m2 Hm2].
    match type of Hin with _ ∈ ?l =>
      let l' := eval vm_compute in l in change l with l' in Hin end.
    repeat (apply elem_of_cons in Hin as [->|Hin]);
      [..|by apply elem_of_nil in Hin];
      vm_compute in Hm, Hm2; first [discriminate Hm | discriminate Hm2].
Defined.

Local Close Scope string_scope.

(** * Further properties *)

Local Open Scope string_scope.

(** ** The paths of [downloadContent] *)

(** X1.  When libcurl gives no handle for the download of an episode,
    [downloadContent] reports [Error initializing curl for download.] and
    returns at once: the destination file is not opened (so an earlier
    download of it is not truncated), nothing is transferred and the tagger
    is not run.  The loop of [main] prints the divider and goes on with the
    episodes that follow. *)
Theorem downloadContent_no_handle
    (world : World) (episode : EpisodeInfo) (after : list EpisodeInfo)
    (h : list event) :
  let h1 :=
    (h ++ [cout ("Title: " ++ name episode);
           cout ("Link: " ++ link episode);
           cout ("Episode Number: " ++ to_string (episodeNumber episode))])%list in
  let report :=
    [curl_easy_init false; cerr "Error initializing curl for download."] in
  answer_curl_easy_init world h1 = false ->
  downloadContent world episode h1 = (inr tt, (h1 ++ report)%list)
  /\ display_and_download world (episode :: after) h
     = display_and_download world after
         (h1 ++ report ++ [cout "----------------------"])%list.
Proof.
  intros h1 report Hinit.
  assert (downloadContent world episode h1 = (inr tt, (h1 ++ report)%list)) as Hdl.
  { unfold downloadContent. rewrite prog_bind_run, call_run, Hinit. cbn [negb].
    rewrite emit_run. unfold report. by rewrite <- (assoc_L app). }
  split; [done|].
  rewrite (display_and_download_cons world episode after h _ Hdl).
  by rewrite <- !(assoc_L app).
Qed.

(** A world where libcurl never gives a handle. *)
Lemma downloadContent_no_handle_witness :
  display_and_download
    (mk_World (fun _ _ => inr false) (fun _ => false) (fun _ _ => ([], 0%Z))
              (fun _ _ => true) (fun _ _ => 0%Z) (fun _ => "No error"))
    [mk_EpisodeInfo "MAG 1" "http://cdn/1.mp3" 1] []
  = (inr tt,
     [cout "Title: MAG 1"; cout "Link: http://cdn/1.mp3"; cout "Episode Number: 1";
      curl_easy_init false; cerr "Error initializing curl for download.";
      cout "----------------------"]).
Proof.
  destruct (downloadContent_no_handle
              (mk_World (fun _ _ => inr false) (fun _ => false) (fun _ _ => ([], 0%Z))
                        (fun _ _ => true) (fun _ _ => 0%Z) (fun _ => "No error"))
              (mk_EpisodeInfo "MAG 1" "http://cdn/1.mp3" 1) [] [])
    as [_ Hloop].
  - reflexivity.
  - rewrite Hloop. reflexivity.
Defined.

(** X2.  A download that succeeds: the body is written to
    [Downloads/<name>.mp3], the curl handle is released and the file closed,
    and only then is [id3v2] run, once, with the episode number as track and
    the title as song.  A non-zero exit status of [id3v2] is reported by
    [Error setting track number.] on [std::cerr], a zero one by
    [Track number set successfully.] on [std::cout]; in both cases
    [downloadContent] returns normally and the loop of [main] goes on with
    the episodes that follow. *)
Theorem downloadContent_success
    (world : World) (episode : EpisodeInfo) (after : list EpisodeInfo)
    (h : list event) (chunks : list string) :
  let path := destination episode in
  let h1 :=
    (h ++ [cout ("Title: " ++ name episode);
           cout ("Link: " ++ link episode);
           cout ("Episode Number: " ++ to_string (episodeNumber episode))])%list in
  let h2 := (h1 ++ [curl_easy_init true; fopen path "wb" true])%list in
  let h3 :=
    (h2 ++ [curl_easy_perform (link episode) (to_file path) chunks CURLE_OK;
            curl_easy_cleanup; fclose path])%list in
  let status := answer_system world h3 (id3v2_command path episode) in
  answer_curl_easy_init world h1 = true ->
  answer_fopen world (h1 ++ [curl_easy_init true]) path = true ->
  answer_curl_easy_perform world h2 (link episode) = (chunks, CURLE_OK) ->
  downloadContent world episode h1
    = (inr tt,
       (h3 ++ [system (id3v2_command path episode) status; tagging_line status])%list)
  /\ display_and_download world (episode :: after) h
     = display_and_download world after
         (h3 ++ [system (id3v2_command path episode) status; tagging_line status;
                 cout "----------------------"])%list.
Proof.
  intros path h1 h2 h3 status Hinit Hopen Hperform.
  assert (downloadContent world episode h1
          = (inr tt,
             (h3 ++ [system (id3v2_command path episode) status;
                     tagging_line status])%list)) as Hdl.
  { unfold downloadContent. rewrite prog_bind_run, call_run, Hinit. cbn [negb].
    fold (destination episode). fold path.
    rewrite prog_bind_run, call_run, Hopen. cbn [negb].
    rewrite <- (assoc_L app). cbn [app]. fold h2.
    rewrite prog_bind_run, call_run, Hperform. cbn [fst snd].
    rewrite Z.eqb_refl. cbn [negb].
    rewrite prog_bind_run. cbn [mret prog_ret].
    rewrite prog_bind_run, emit_run, prog_bind_run, emit_run.
    rewrite <- !(assoc_L app). cbn [app]. fold h3.
    unfold setTrackNumber. fold (id3v2_command path episode).
    rewrite prog_bind_run, call_run. fold status.
    unfold tagging_line. destruct (status =? 0)%Z; cbn [negb]; rewrite emit_run;
      by rewrite <- (assoc_L app). }
  split; [done|].
  rewrite (display_and_download_cons world episode after h _ Hdl).
  by rewrite <- !(assoc_L app).
Qed.

(** A world where everything works but [id3v2], which is not installed. *)
Lemma downloadContent_success_witness :
  display_and_download
    (mk_World (fun _ _ => inr false) (fun _ => true) (fun _ _ => (["ID3"], 0%Z))
              (fun _ _ => true) (fun _ _ => 32512%Z) (fun _ => "No error"))
    [mk_EpisodeInfo "MAG 1" "http://cdn/1.mp3" 1] []
  = (inr tt,
     [cout "Title: MAG 1"; cout "Link: http://cdn/1.mp3"; cout "Episode Number: 1";
      curl_easy_init true; fopen "Downloads/MAG 1.mp3" "wb" true;
      curl_easy_perform "http://cdn/1.mp3" (to_file "Downloads/MAG 1.mp3") ["ID3"] 0;
      curl_easy_cleanup; fclose "Downloads/MAG 1.mp3";
      system (id3v2_command "Downloads/MAG 1.mp3"
                (mk_EpisodeInfo "MAG 1" "http://cdn/1.mp3" 1)) 32512;
      cerr "Error setting track number.";
      cout "----------------------"]).
Proof.
  destruct (downloadContent_success
              (mk_World (fun _ _ => inr false) (fun _ => true)
                        (fun _ _ => (["ID3"], 0%Z))
                        (fun _ _ => true) (fun _ _ => 32512%Z) (fun _ => "No error"))
              (mk_EpisodeInfo "MAG 1" "http://cdn/1.mp3" 1) [] [] ["ID3"])
    as [_ Hloop].
  - reflexivity.
  - reflexivity.
  - reflexivity.
  - rewrite Hloop. reflexivity.
Defined.


(** ** What a run leaves behind *)

(** The events [downloadContent] adds to the history have one of three
    shapes; no exception leaves it. *)
Lemma downloadContent_events (world : World) (episode : EpisodeInfo) (h : list event) :
  exists added,
    downloadContent world episode h = (inr tt, (h ++ added)%list)
    /\ (added = [curl_easy_init false; cerr "Error initializing curl for download."]
        \/ added = [curl_easy_init true; fopen (destination episode) "wb" false;
                    cerr "Error opening file for writing."; curl_easy_cleanup]
        \/ exists chunks res status,
             added
             = ([curl_easy_init true; fopen (destination episode) "wb" true;
                 curl_easy_perform (link episode) (to_file (destination episode))
                   chunks res]
                ++ (if (res =? CURLE_OK)%Z then []
                    else [cerr ("curl_easy_perform() failed for download: "
                                ++ curl_easy_strerror world res)])
                ++ [curl_easy_cleanup; fclose (destination episode);
                    system (id3v2_command (destination episode) episode) status;
                    tagging_line status])%list).
Proof.
  unfold downloadContent. rewrite prog_bind_run, call_run.
  destruct (answer_curl_easy_init world h); cbn [negb].
  2:{ rewrite emit_run, <- (assoc_L app). eexists. split; [reflexivity|]. by left. }
  fold (destination episode).
  rewrite prog_bind_run, call_run.
  destruct (answer_fopen world _ _); cbn [negb].
  2:{ rewrite prog_bind_run, emit_run, emit_run, <- !(assoc_L app).
      eexists. split; [reflexivity|]. right. by left. }
  rewrite prog_bind_run, call_run.
  destruct (answer_curl_easy_perform world _ _) as [chunks res]. cbn [fst snd].
  set (tail_ := emit curl_easy_cleanup ≫= _).
  assert (forall h', exists status,
            tail_ h' = (inr tt,
                        (h' ++ [curl_easy_cleanup; fclose (destination episode);
                                system (id3v2_command (destination episode) episode) status;
                                tagging_line status])%list)) as Htail.
  { intros h'. unfold tail_.
    rewrite prog_bind_run, emit_run, prog_bind_run, emit_run.
    unfold setTrackNumber. fold (id3v2_command (destination episode) episode).
    rewrite prog_bind_run, call_run.
    exists (answer_system world
              ((h' ++ [curl_easy_cleanup]) ++ [fclose (destination episode)])%list
              (id3v2_command (destination episode) episode)).
    unfold tagging_line.
    destruct (_ =? 0)%Z; cbn [negb]; rewrite emit_run;
      by rewrite <- !(assoc_L app). }
  rewrite prog_bind_run.
  destruct (res =? CURLE_OK)%Z eqn:Hres; cbn [negb].
  - cbn [mret prog_ret].
    destruct (Htail ((h ++ [curl_easy_init true])
                       ++ [fopen (destination episode) "wb" true]
                       ++ [curl_easy_perform (link episode)
                             (to_file (destination episode)) chunks res])%list)
      as [status Hst].
    rewrite (assoc_L app) in Hst. rewrite Hst.
    eexists. split; [by rewrite <- !(assoc_L app)|].
    right. right. exists chunks, res, status. by rewrite Hres.
  - rewrite emit_run.
    destruct (Htail ((((h ++ [curl_easy_init true])
                         ++ [fopen (destination episode) "wb" true])
                        ++ [curl_easy_perform (link episode)
                              (to_file (destination episode)) chunks res])
                       ++ [cerr ("curl_easy_perform() failed for download: "
                                 ++ curl_easy_strerror world res)])%list)
      as [status Hst].
    rewrite Hst.
    eexists. split; [by rewrite <- !(assoc_L app)|].
    right. right. exists chunks, res, status. by rewrite Hres.
Qed.

Lemma count_app (p : event -> bool) (l1 l2 : list event) :
  count p (l1 ++ l2) = (count p l1 + count p l2)%nat.
Proof. unfold count. by rewrite List.filter_app, length_app. Qed.

Lemma balanced_app (l1 l2 : list event) :
  balanced l1 -> balanced l2 -> balanced (l1 ++ l2).
Proof.
  unfold balanced. intros [H1 H1'] [H2 H2']. rewrite !count_app. lia.
Qed.

Lemma prefix_Title (s : string) : String.prefix "Title: " ("Title: " ++ s) = true.
Proof. cbn. by destruct s. Qed.

Lemma downloadContent_adds (world : World) (episode : EpisodeInfo) (h : list event) :
  exists added,
    downloadContent world episode h = (inr tt, (h ++ added)%list)
    /\ balanced added
    /\ omap title_line added = []
    /\ count attempts added = 1%nat.
Proof.
  destruct (downloadContent_events world episode h)
    as (added & Hdl & [-> | [-> | (chunks & res & status & ->)]]);
    eexists; (split; [exact Hdl|]).
  - by repeat split.
  - by repeat split.
  - unfold tagging_line.
    destruct (res =? CURLE_OK)%Z, (status =? 0)%Z; by repeat split.
Qed.

Lemma display_and_download_adds (world : World) (episodes : list EpisodeInfo)
    (h : list event) :
  exists added,
    display_and_download world episodes h = (inr tt, (h ++ added)%list)
    /\ balanced added
    /\ omap title_line added = map (fun e => "Title: " ++ name e) episodes
    /\ count attempts added = length episodes.
Proof.
  revert h. induction episodes as [|episode episodes IH]; intros h.
  { exists []. by rewrite app_nil_r. }
  destruct (downloadContent_adds world episode
              (h ++ [cout ("Title: " ++ name episode);
                     cout ("Link: " ++ link episode);
                     cout ("Episode Number: " ++ to_string (episodeNumber episode))])%list)
    as (dl & Hdl & Hbal & Htitles & Hcount).
  rewrite (display_and_download_cons world episode episodes h _ Hdl).
  destruct (IH (((h ++ [cout ("Title: " ++ name episode);
                        cout ("Link: " ++ link episode);
                        cout ("Episode Number: " ++ to_string (episodeNumber episode))])
                   ++ dl) ++ [cout "----------------------"])%list)
    as (rest & -> & Hbal' & Htitles' & Hcount').
  exists ([cout ("Title: " ++ name episode);
           cout ("Link: " ++ link episode);
           cout ("Episode Number: " ++ to_string (episodeNumber episode))]
            ++ dl ++ [cout "----------------------"] ++ rest)%list.
  split; [by rewrite <- !(assoc_L app)|]. split; [|split].
  - apply (balanced_app [_; _; _]); [done|].
    apply balanced_app; [done|]. by apply (balanced_app [_]).
  - rewrite !omap_app, Htitles, Htitles'.
    cbn [omap list_omap title_line map app]. by rewrite prefix_Title.
  - rewrite !count_app, Hcount, Hcount'. reflexivity.
Qed.

Lemma adds_balanced_ret {A : Type} (a : A) : adds_balanced (mret a : prog A).
Proof. intros h. exists []. by rewrite app_nil_r. Qed.

Lemma adds_balanced_bind {A B : Type} (c : prog A) (f : A -> prog B) :
  adds_balanced c -> (forall a, adds_balanced (f a)) -> adds_balanced (c ≫= f).
Proof.
  intros Hc Hf h. rewrite prog_bind_run.
  destruct (Hc h) as (added & Hh & Hbal).
  destruct (c h) as [[e|a] h']; cbn [snd] in Hh; subst h'.
  - by exists added.
  - destruct (Hf a (h ++ added)%list) as (added' & -> & Hbal').
    exists (added ++ added')%list. split; [by rewrite (assoc_L app)|].
    by apply balanced_app.
Qed.

Lemma parseRssFeed_adds_balanced (load_string : string -> xml_parse_result)
    (pattern_ : regex) (xmlData : string) (episodes : list EpisodeInfo) :
  adds_balanced (parseRssFeed load_string pattern_ xmlData episodes).
Proof.
  intros h. unfold parseRssFeed. destruct (load_string xmlData) as [doc|d].
  - rewrite parse_items_history. exists []. by rewrite app_nil_r.
  - rewrite prog_bind_run, emit_run. by eexists.
Qed.

Lemma display_and_download_adds_balanced (world : World) (episodes : list EpisodeInfo) :
  adds_balanced (display_and_download world episodes).
Proof.
  intros h. destruct (display_and_download_adds world episodes h)
    as (added & -> & Hbal & _).
  by exists added.
Qed.

Lemma main_adds_balanced
    (load_string : string -> xml_parse_result) (world : World)
    (argv : list string) :
  adds_balanced (main load_string world argv).
Proof.
  intros h. unfold main. destruct (argv !! 1%nat) as [url|].
  2:{ rewrite prog_bind_run, emit_run. by eexists. }
  rewrite prog_bind_run, emit_run, prog_bind_run, call_run.
  destruct (answer_create_directories world _ _) as [e|created].
  { rewrite prog_bind_run. cbn [throw]. rewrite <- (assoc_L app). by eexists. }
  rewrite prog_bind_run. cbn [mret prog_ret].
  rewrite prog_bind_run, call_run.
  destruct (answer_curl_easy_init world _); cbn [negb].
  2:{ rewrite prog_bind_run, emit_run, <- !(assoc_L app). by eexists. }
  rewrite prog_bind_run, call_run.
  destruct (answer_curl_easy_perform world _ _) as [chunks res]. cbn [fst snd].
  destruct (res =? CURLE_OK)%Z; cbn [negb].
  2:{ rewrite prog_bind_run, emit_run, prog_bind_run, emit_run, <- !(assoc_L app).
      by eexists. }
  rewrite prog_bind_run, emit_run.
  set (rest := parseRssFeed load_string pattern _ [] ≫= _).
  assert (adds_balanced rest) as Hrest.
  { apply adds_balanced_bind; [apply parseRssFeed_adds_balanced|]. intros episodes.
    apply adds_balanced_bind; [apply display_and_download_adds_balanced|]. intros _.
    apply adds_balanced_bind; [apply parseRssFeed_adds_balanced|]. intros episodes2.
    apply adds_balanced_bind; [apply display_and_download_adds_balanced|]. intros _.
    apply adds_balanced_ret. }
  match goal with |- context [rest ?h'] => destruct (Hrest h') as (added & -> & Hbal) end.
  rewrite <- !(assoc_L app). eexists. split; [reflexivity|].
  by apply (balanced_app [_; _; _; _; _]).
Qed.

(** X3.  Whatever the world answers and however the run ends (exit status
    0 or 1, or an exception), [main] only adds to the history, and in what
    it adds every curl handle that was obtained is released and every file
    that was opened is closed: there are as many [curl_easy_cleanup] as
    successful [curl_easy_init], and as many [fclose] as successful
    [fopen]. *)
Theorem main_releases_resources
    (load_string : string -> xml_parse_result) (world : World)
    (argv : list string) (h : list event) :
  exists added,
    (main load_string world argv h).2 = (h ++ added)%list
    /\ count takes_handle added = count releases_handle added
    /\ count opens_file added = count closes_file added.
Proof. apply main_adds_balanced. Qed.

(** X4.  The loop of [main] over a list of episodes never stops early:
    whatever fails for an episode (no curl handle, no file, a failed
    transfer, a failed tagging), no exception leaves the loop, every
    episode of the list is announced by its [Title: ] line, in the order of
    the list, and exactly one download is attempted for each. *)
Theorem every_episode_is_attempted
    (world : World) (episodes : list EpisodeInfo) (h : list event) :
  exists added,
    display_and_download world episodes h = (inr tt, (h ++ added)%list)
    /\ omap title_line added = map (fun e => "Title: " ++ name e) episodes
    /\ count attempts added = length episodes.
Proof.
  destruct (display_and_download_adds world episodes h)
    as (added & Hrun & _ & Htitles & Hcount).
  by exists added.
Qed.

(** ** [main] after the feed was fetched *)

(** Once the feed is fetched, [main] is the two passes, run on the history
    that ends with the transfer and the release of the handle. *)
Lemma main_fetched
    (load_string : string -> xml_parse_result) (world : World)
    (argv : list string) (h : list event) (url : string) (created : bool)
    (chunks : list string) :
  let h1 := (h ++ [cout url; create_directories "Downloads" (inr created)])%list in
  let responseData :=
    fold_left (fun output contents => fst (writeCallback contents output))
              chunks EmptyString in
  argv !! 1%nat = Some url ->
  answer_create_directories world (h ++ [cout url]) "Downloads" = inr created ->
  answer_curl_easy_init world h1 = true ->
  answer_curl_easy_perform world (h1 ++ [curl_easy_init true]) url = (chunks, CURLE_OK) ->
  main load_string world argv h
  = (episodes ← parseRssFeed load_string pattern responseData [];
     display_and_download world (sort by_episodeNumber episodes);;
     episodes2 ← parseRssFeed load_string pattern2 responseData [];
     display_and_download world (sort by_episodeNumber episodes2);;
     mret 0%Z)
      (h1 ++ [curl_easy_init true;
              curl_easy_perform url to_callback chunks CURLE_OK;
              curl_easy_cleanup])%list.
Proof.
  intros h1 responseData Hargv Hcreated Hinit Hperform.
  unfold main. rewrite Hargv.
  rewrite prog_bind_run, emit_run, prog_bind_run, call_run, Hcreated.
  rewrite prog_bind_run. cbn [mret prog_ret].
  rewrite <- (assoc_L app). cbn [app]. fold h1.
  rewrite prog_bind_run, call_run, Hinit. cbn [negb].
  rewrite prog_bind_run, call_run, Hperform. cbn [fst snd].
  rewrite Z.eqb_refl. cbn [negb].
  rewrite prog_bind_run, emit_run.
  by rewrite <- !(assoc_L app).
Qed.

Lemma parseRssFeed_run (load_string : string -> xml_parse_result)
    (pattern_ : regex) (xmlData : string) (doc : xml_document)
    (episodes : list EpisodeInfo) (h : list event) :
  load_string xmlData = status_ok doc ->
  parseRssFeed load_string pattern_ xmlData episodes h
  = ((parseRssFeed load_string pattern_ xmlData episodes []).1, h).
Proof.
  intros Hdoc. unfold parseRssFeed. rewrite Hdoc.
  by rewrite parse_items_history.
Qed.

Lemma parseRssFeed_throws (load_string : string -> xml_parse_result)
    (pattern_ : regex) (xmlData : string) (episodes : list EpisodeInfo)
    (e : exception) :
  (parseRssFeed load_string pattern_ xmlData episodes []).1 = inl e ->
  exists doc, load_string xmlData = status_ok doc.
Proof.
  unfold parseRssFeed. destruct (load_string xmlData) as [doc|d]; [eauto|].
  by rewrite prog_bind_run, emit_run.
Qed.

(** X5.  When the feed was fetched but pugixml refuses the data (an HTML
    error page, say), [main] reports [Error parsing XML: ...] twice, once
    for each series, attempts no download at all and ends with the exit
    status 0. *)
Theorem main_feed_is_not_xml
    (load_string : string -> xml_parse_result) (world : World)
    (argv : list string) (h : list event) (url : string) (created : bool)
    (chunks : list string) (description : string) :
  let h1 := (h ++ [cout url; create_directories "Downloads" (inr created)])%list in
  let responseData :=
    fold_left (fun output contents => fst (writeCallback contents output))
              chunks EmptyString in
  argv !! 1%nat = Some url ->
  answer_create_directories world (h ++ [cout url]) "Downloads" = inr created ->
  answer_curl_easy_init world h1 = true ->
  answer_curl_easy_perform world (h1 ++ [curl_easy_init true]) url = (chunks, CURLE_OK) ->
  load_string responseData = status_error description ->
  main load_string world argv h
  = (inr 0%Z,
     (h1 ++ [curl_easy_init true;
             curl_easy_perform url to_callback chunks CURLE_OK;
             curl_easy_cleanup;
             cerr ("Error parsing XML: " ++ description);
             cerr ("Error parsing XML: " ++ description)])%list).
Proof.
  intros h1 responseData Hargv Hcreated Hinit Hperform Hload.
  rewrite (main_fetched load_string world argv h url created chunks
             Hargv Hcreated Hinit Hperform).
  fold h1 responseData.
  assert (forall (pattern_ : regex) h',
            parseRssFeed load_string pattern_ responseData [] h'
            = (inr [], (h' ++ [cerr ("Error parsing XML: " ++ description)])%list))
    as Hparse.
  { intros pattern_ h'. unfold parseRssFeed. by rewrite Hload. }
  rewrite prog_bind_run, Hparse.
  change (sort by_episodeNumber []) with (@nil EpisodeInfo).
  rewrite prog_bind_run. cbn [display_and_download for_each mret prog_ret].
  rewrite prog_bind_run, Hparse.
  change (sort by_episodeNumber []) with (@nil EpisodeInfo).
  rewrite prog_bind_run. cbn [display_and_download for_each mret prog_ret].
  by rewrite <- !(assoc_L app).
Qed.

(** X6.  When [std::filesystem::create_directories] throws, the exception
    leaves [main] (the process is terminated) right after the URL was
    printed: libcurl is not called and nothing is fetched. *)
Theorem main_cannot_create_directory
    (load_string : string -> xml_parse_result) (world : World)
    (argv : list string) (h : list event) (url : string) (e : exception) :
  argv !! 1%nat = Some url ->
  answer_create_directories world (h ++ [cout url]) "Downloads" = inl e ->
  main load_string world argv h
  = (inl e, (h ++ [cout url; create_directories "Downloads" (inl e)])%list).
Proof.
  intros Hargv Hcreated. unfold main. rewrite Hargv.
  rewrite prog_bind_run, emit_run, prog_bind_run, call_run, Hcreated.
  rewrite prog_bind_run. cbn [throw]. by rewrite <- (assoc_L app).
Qed.

(** X7.  An exception of [std::stoi] in a parse is not caught: it leaves
    [main].  When it is raised in the first pass, the run ends before any
    episode is shown or downloaded; when it is raised in the second pass,
    the run ends after the episodes of the first series were processed,
    without any episode of the second. *)
Theorem main_parse_throws
    (load_string : string -> xml_parse_result) (world : World)
    (argv : list string) (h : list event) (url : string) (created : bool)
    (chunks : list string) (e : exception) :
  let h1 := (h ++ [cout url; create_directories "Downloads" (inr created)])%list in
  let h2 :=
    (h1 ++ [curl_easy_init true;
            curl_easy_perform url to_callback chunks CURLE_OK;
            curl_easy_cleanup])%list in
  let responseData :=
    fold_left (fun output contents => fst (writeCallback contents output))
              chunks EmptyString in
  argv !! 1%nat = Some url ->
  answer_create_directories world (h ++ [cout url]) "Downloads" = inr created ->
  answer_curl_easy_init world h1 = true ->
  answer_curl_easy_perform world (h1 ++ [curl_easy_init true]) url = (chunks, CURLE_OK) ->
  ((parseRssFeed load_string pattern responseData [] []).1 = inl e ->
   main load_string world argv h = (inl e, h2))
  /\ (forall episodes,
        (parseRssFeed load_string pattern responseData [] []).1 = inr episodes ->
        (parseRssFeed load_string pattern2 responseData [] []).1 = inl e ->
        main load_string world argv h
        = (inl e,
           (display_and_download world (sort by_episodeNumber episodes) h2).2)).
Proof.
  intros h1 h2 responseData Hargv Hcreated Hinit Hperform.
  rewrite (main_fetched load_string world argv h url created chunks
             Hargv Hcreated Hinit Hperform).
  fold h1 responseData h2. split.
  - intros Hthrow.
    destruct (parseRssFeed_throws _ _ _ _ _ Hthrow) as [doc Hdoc].
    by rewrite prog_bind_run, (parseRssFeed_run _ _ _ doc _ _ Hdoc), Hthrow.
  - intros episodes Hparse Hthrow.
    destruct (parseRssFeed_throws _ _ _ _ _ Hthrow) as [doc Hdoc].
    rewrite prog_bind_run, (parseRssFeed_run _ _ _ doc _ _ Hdoc), Hparse.
    rewrite prog_bind_run.
    destruct (display_and_download_returns world (sort by_episodeNumber episodes) h2)
      as [h3 ->].
    by rewrite prog_bind_run, (parseRssFeed_run _ _ _ doc _ _ Hdoc), Hthrow.
Qed.

Lemma main_feed_is_not_xml_witness :
  main FeedText.read_document (serving ["Service "; "unavailable"])
    ["magnus"; "https://feed.example/rss"] []
  = (inr 0%Z,
     [cout "https://feed.example/rss";
      create_directories "Downloads" (inr true);
      curl_easy_init true;
      curl_easy_perform "https://feed.example/rss" to_callback
        ["Service "; "unavailable"] 0;
      curl_easy_cleanup;
      cerr "Error parsing XML: No document element found";
      cerr "Error parsing XML: No document element found"]).
Proof.
  apply (main_feed_is_not_xml FeedText.read_document
           (serving ["Service "; "unavailable"])
           ["magnus"; "https://feed.example/rss"] []
           "https://feed.example/rss" true ["Service "; "unavailable"]
           "No document element found");
    vm_compute; reflexivity.
Defined.

Lemma main_cannot_create_directory_witness :
  main FeedText.read_document no_space ["magnus"; "https://feed.example/rss"] []
  = (inl (filesystem_error "filesystem error: cannot create directories: No space left on device [Downloads]"),
     [cout "https://feed.example/rss";
      create_directories "Downloads"
        (inl (filesystem_error "filesystem error: cannot create directories: No space left on device [Downloads]"))]).
Proof.
  apply (main_cannot_create_directory FeedText.read_document no_space
           ["magnus"; "https://feed.example/rss"] []
           "https://feed.example/rss");
    reflexivity.
Defined.

Lemma main_parse_throws_witness :
  (main FeedText.read_document (serving [feed_of_large_number])
     ["magnus"; "https://feed.example/rss"] []).1
  = inl (out_of_range "stoi")
  /\ omap title_line
       (main FeedText.read_document (serving [feed_of_large_number])
          ["magnus"; "https://feed.example/rss"] []).2
     = ["Title: MAG 1"].
Proof.
  destruct (main_parse_throws FeedText.read_document
              (serving [feed_of_large_number])
              ["magnus"; "https://feed.example/rss"] []
              "https://feed.example/rss" true [feed_of_large_number]
              (out_of_range "stoi")) as [_ Hsecond]; try reflexivity.
  rewrite (Hsecond [mk_EpisodeInfo "MAG 1" "http://cdn/1.mp3" 1]).
  - split; vm_compute; reflexivity.
  - vm_compute. reflexivity.
  - vm_compute. reflexivity.
Defined.

(** ** Every outcome of [parseRssFeed] *)

(** X8.  On a feed text that pugixml accepts, [parseRssFeed] writes nothing
    and ends in one of two ways, for every pattern.
    - [std::stoi] converts the capture of every matching item: the function
      returns the caller's vector followed by the records of the items, in
      feed order; the number of every such record is the converted capture,
      it is an [int] and never the sentinel [-1], and its title and link are
      those of an item whose title matches.
    - Otherwise the exception of the first item, in feed order, whose
      capture [std::stoi] does not convert leaves the function; it is
      [std::invalid_argument] or [std::out_of_range]. *)
Theorem parseRssFeed_outcome
    (load_string : string -> xml_parse_result) (pattern_ : regex)
    (xmlData : string) (doc : xml_document)
    (episodes : list EpisodeInfo) (h : list event) :
  load_string xmlData = status_ok doc ->
  (exists records,
     forallb (converts pattern_) (items_of doc) = true
     /\ parseRssFeed load_string pattern_ xmlData episodes h
        = (inr (episodes ++ records)%list, h)
     /\ records = omap (episode_of pattern_) (items_of doc)
     /\ forall r, r ∈ records ->
          episodeNumber r <> (-1)%Z
          /\ (INT_MIN <= episodeNumber r <= INT_MAX)%Z
          /\ exists item m,
               item ∈ items_of doc
               /\ regex_search (item_name item) pattern_ = Some m
               /\ stoi (str m 1) = inr (episodeNumber r)
               /\ name r = item_name item /\ link r = item_link item)
  \/ (exists before item after m e,
        items_of doc = (before ++ item :: after)%list
        /\ forallb (converts pattern_) before = true
        /\ regex_search (item_name item) pattern_ = Some m
        /\ stoi (str m 1) = inl e
        /\ (e = invalid_argument "stoi" \/ e = out_of_range "stoi")
        /\ parseRssFeed load_string pattern_ xmlData episodes h = (inl e, h)).
Proof.
  intros Hdoc. unfold parseRssFeed. rewrite Hdoc. fold (items_of doc).
  destruct (parse_items_outcome pattern_ (items_of doc) episodes h)
    as [[Hall Hrun]|(before & item & after & m & e & Hitems & Hbefore & Hm & He & Hrun)].
  - left. exists (omap (episode_of pattern_) (items_of doc)).
    repeat split; try done;
      apply list_elem_of_omap in H as (item & Hin & Hr);
      destruct (episode_of_facts _ _ _ Hr) as (? & ? & ? & [? ?] & m & ? & ?);
      try done.
    exists item, m. by repeat split.
  - right. exists before, item, after, m, e. repeat split; try done.
    by apply stoi_exceptions in He.
Qed.

Lemma parseRssFeed_outcome_witness :
  parseRssFeed FeedText.read_document pattern2 feed_of_large_number [] []
  = (inl (out_of_range "stoi"), []).
Proof.
  destruct (parseRssFeed_outcome FeedText.read_document pattern2
              feed_of_large_number
              [node_element "rss" []
                 [node_element "channel" []
                    [node_element "item" []
                       [node_element "title" [] [node_pcdata "MAG 1"];
                        node_element "enclosure" [("url", "http://cdn/1.mp3")] []];
                     node_element "item" []
                       [node_element "title" []
                          [node_pcdata "The Magnus Protocol 99999999999"];
                        node_element "enclosure" [("url", "http://cdn/p.mp3")] []]]]]
              [] [])
    as [(records & Hall & _)|(before & item & after & m & e & _ & _ & _ & _ & _ & Hrun)].
  - vm_compute. reflexivity.
  - vm_compute in Hall. discriminate Hall.
  - rewrite Hrun. vm_compute in Hrun. by injection Hrun as ->.
Defined.

(** ** The episode number of a title *)

(** X9.  For every title that begins, in any letter case, with the name of
    a series and a space, then has a decimal numeral that fits an [int],
    and then ends or goes on with a character that is not a digit
    ([MAG 12 - First Aid], [mag 5 bonus]), the pass for that series gives
    the item the value of the whole numeral as episode number. *)
Theorem episode_number_of_title
    (pattern_ : regex) (series : string) (item : xml_node_struct)
    (p ds rest : string) (episodes : list EpisodeInfo) (h : list event) :
  (pattern_ = pattern /\ series = "MAG ")
    \/ (pattern_ = pattern2 /\ series = "The Magnus Protocol ") ->
  item_name item = p ++ ds ++ rest ->
  map tolower (list_ascii_of_string p) = map tolower (list_ascii_of_string series) ->
  numeral ds ->
  starts_with_digit (list_ascii_of_string rest) = false ->
  parse_item pattern_ item episodes h
  = (inr (episodes
          ++ [mk_EpisodeInfo (item_name item) (item_link item)
                (digits_value 0 (list_ascii_of_string ds))])%list, h).
Proof.
  intros Hseries Hname Hp Hnum Hrest.
  destruct (numeral_chars ds Hnum) as [Hne Hdigits].
  destruct (stoi_numeral ds Hnum) as [Hstoi Hpos].
  assert (regex_search (item_name item) pattern_
          = Some (mk_smatch [(1%nat, list_ascii_of_string ds)])) as Hm.
  { rewrite Hname. unfold regex_search.
    rewrite !list_ascii_of_string_app.
    erewrite search_exec; [reflexivity|].
    destruct Hseries as [[-> ->] | [-> ->]];
      unfold pattern, pattern2; cbn [re_node re_icase]; unfold re_string;
      rewrite exec_literal by (by apply translate_tolower);
      by apply exec_group_digits_rest. }
  rewrite parse_item_eq, Hm. unfold str. cbn [sm_subs sub_match Nat.eqb].
  rewrite string_of_list_ascii_of_string, Hstoi.
  by destruct (Z.eqb_spec (digits_value 0 (list_ascii_of_string ds)) (-1)); [lia|].
Qed.

Lemma episode_number_of_title_witness :
  parse_item pattern
    (node_element "item" []
       [node_element "title" [] [node_pcdata "mag 12 - First Aid"]]) [] []
  = (inr [mk_EpisodeInfo "mag 12 - First Aid" EmptyString 12], []).
Proof.
  apply (episode_number_of_title pattern "MAG "
           (node_element "item" []
              [node_element "title" [] [node_pcdata "mag 12 - First Aid"]])
           "mag " "12" " - First Aid" [] []).
  - by left.
  - reflexivity.
  - reflexivity.
  - repeat split; [done|repeat constructor|done].
  - reflexivity.
Defined.

(** ** What the two patterns of [main] accept *)

(** X10.  What the two passes of [main] do with an item.  Either the
    title does not match and the item is skipped; or the title holds
    somewhere the name of the series and a space, in any letter case,
    followed by a run of digits that ends at the end of the title or at a
    character that is not a digit.  Then the item gets a record whose
    episode number is the value of the whole run, never negative; or, when
    that value is above [INT_MAX], [std::stoi] throws [std::out_of_range].
    So with these patterns [std::invalid_argument] is never thrown and the
    test against [-1] never drops a matching item. *)
Theorem parse_item_of_series
    (pattern_ : regex) (series : string) (item : xml_node_struct)
    (episodes : list EpisodeInfo) (h : list event) :
  (pattern_ = pattern /\ series = "MAG ")
    \/ (pattern_ = pattern2 /\ series = "The Magnus Protocol ") ->
  (matches pattern_ item = false
   /\ parse_item pattern_ item episodes h = (inr episodes, h))
  \/ exists pre p ds rest : list ascii,
       list_ascii_of_string (item_name item) = (pre ++ p ++ ds ++ rest)%list
       /\ map tolower p = map tolower (list_ascii_of_string series)
       /\ ds <> []
       /\ Forall (fun c => isdigit c = true) ds
       /\ starts_with_digit rest = false
       /\ matches pattern_ item = true
       /\ (0 <= digits_value 0 ds)%Z
       /\ (((digits_value 0 ds <= INT_MAX)%Z
            /\ parse_item pattern_ item episodes h
               = (inr (episodes
                       ++ [mk_EpisodeInfo (item_name item) (item_link item)
                             (digits_value 0 ds)])%list, h))
           \/ ((INT_MAX < digits_value 0 ds)%Z
               /\ parse_item pattern_ item episodes h
                  = (inl (out_of_range "stoi"), h))).
Proof.
  intros Hseries. rewrite parse_item_eq. unfold matches.
  destruct (regex_search (item_name item) pattern_) as [m|] eqn:Hm; [|by left].
  right. unfold regex_search in Hm.
  destruct (search (re_icase pattern_) (re_node pattern_)
              (list_ascii_of_string (item_name item))) as [res|] eqn:Hsearch;
    [|done].
  injection Hm as <-.
  assert (re_icase pattern_ = true
          /\ re_node pattern_
             = re_concat (map re_char (list_ascii_of_string series))
                 (re_group 1 (re_plus re_digit))) as [Hicase Hnode]
    by (by destruct Hseries as [[-> ->] | [-> ->]]).
  rewrite Hicase, Hnode in Hsearch.
  apply search_literal_digits
    in Hsearch as (pre & p & ds & rest & Htitle & Hp & Hne & Hds & Hrest & ->).
  exists pre, p, ds, rest.
  destruct (stoi_digits ds Hne Hds) as [Hpos Hstoi].
  repeat split; try done.
  unfold str. cbn [sm_subs sub_match Nat.eqb]. rewrite Hstoi.
  destruct (Z.leb_spec (digits_value 0 ds) INT_MAX); [left|by right].
  split; [done|].
  by destruct (Z.eqb_spec (digits_value 0 ds) (-1)); [lia|].
Qed.

Lemma parse_item_of_series_witness :
  (matches pattern item_of_rerun = false
   /\ parse_item pattern item_of_rerun [] [] = (inr [], []))
  \/ exists pre p ds rest : list ascii,
       list_ascii_of_string (item_name item_of_rerun) = (pre ++ p ++ ds ++ rest)%list
       /\ map tolower p = map tolower (list_ascii_of_string "MAG ")
       /\ ds <> []
       /\ Forall (fun c => isdigit c = true) ds
       /\ starts_with_digit rest = false
       /\ matches pattern item_of_rerun = true
       /\ (0 <= digits_value 0 ds)%Z
       /\ (((digits_value 0 ds <= INT_MAX)%Z
            /\ parse_item pattern item_of_rerun [] []
               = (inr ([] ++ [mk_EpisodeInfo (item_name item_of_rerun) (item_link item_of_rerun)
                               (digits_value 0 ds)])%list, []))
           \/ ((INT_MAX < digits_value 0 ds)%Z
               /\ parse_item pattern item_of_rerun [] [] = (inl (out_of_range "stoi"), []))).
Proof.
  apply (parse_item_of_series pattern "MAG " item_of_rerun [] []). by left.
Defined.

(** ** The order of records with the same number *)

Section SortStable.
Local Open Scope nat_scope.
Local Open Scope list_scope.
Context {T : Type} (comp : T -> T -> bool).
Implicit Types v : list T.

Hypothesis comp_asym : forall x y, comp x y = true -> comp y x = false.
Hypothesis comp_negtrans :
  forall x y z, comp x y = false -> comp y z = false -> comp x z = false.

(** [P] selects elements none of which is smaller than another. *)
Variable P : T -> bool.
Hypothesis P_class : forall x y, P x = true -> P y = true -> comp x y = false.

Lemma filter_greater val l :
  P val = true -> Forall (fun y => comp val y = true) l -> List.filter P l = [].
Proof.
  intros Hval Hl. induction Hl as [|y l Hy Hl IH]; [done|].
  cbn [List.filter]. destruct (P y) eqn:HPy; [|done].
  by rewrite (P_class val y) in Hy.
Qed.

Lemma unguarded_linear_insert_stable i v :
  List.filter P (unguarded_linear_insert comp i v) = List.filter P v.
Proof.
  destruct (v !! i) as [val|] eqn:Hi.
  - destruct (unguarded_linear_insert_app comp i v val Hi)
      as (l1 & l2 & Htake & Hall & _ & ->).
    transitivity (List.filter P (take i v ++ val :: drop (S i) v));
      [|by rewrite (take_drop_middle v i val Hi)].
    rewrite Htake, <- (assoc_L app), !List.filter_app. f_equal.
    cbn [List.filter]. rewrite !List.filter_app.
    destruct (P val) eqn:HP; [|done].
    by rewrite (filter_greater val l2).
  - unfold unguarded_linear_insert. by rewrite Hi.
Qed.

Lemma insertion_step_stable i v :
  StronglySorted (ordered comp) (take i v) ->
  List.filter P (insertion_step comp v i) = List.filter P v.
Proof.
  intros Hs. unfold insertion_step, comp_iter.
  destruct (v !! i) as [val|] eqn:Hval; [|apply unguarded_linear_insert_stable].
  destruct (v !! 0) as [f|] eqn:Hf; [|apply unguarded_linear_insert_stable].
  destruct (comp val f) eqn:Hc; [|apply unguarded_linear_insert_stable].
  unfold move_to_first. rewrite Hval, take_0, drop_0, Nat.sub_0_r. cbn [app].
  transitivity (List.filter P (take i v ++ val :: drop (S i) v));
    [|by rewrite (take_drop_middle v i val Hval)].
  rewrite List.filter_app. cbn [List.filter].
  destruct (P val) eqn:HP; [|by rewrite List.filter_app].
  rewrite List.filter_app, (filter_greater val (take i v)); [done..|].
  apply Forall_forall. intros y Hy.
  destruct (comp val y) eqn:Hy'; [done|].
  rewrite <- Hc. symmetry. apply (comp_negtrans _ y); [done|].
  destruct i as [|i]; [by apply elem_of_nil in Hy|].
  destruct v as [|f' v]; [done|]. injection Hf as ->.
  rewrite firstn_cons in Hs, Hy.
  apply StronglySorted_cons in Hs as [Hall _].
  apply elem_of_cons in Hy as [->|Hy].
  - destruct (comp f f) eqn:Hff; [|done]. by rewrite (comp_asym _ _ Hff) in Hff.
  - rewrite Forall_forall in Hall. by apply Hall.
Qed.

Lemma fold_left_stable (step : list T -> nat -> list T) n k v :
  (forall w i, step w i ≡ₚ w) ->
  (forall w i, i < length w -> StronglySorted (ordered comp) (take i w) ->
               StronglySorted (ordered comp) (take (S i) (step w i))) ->
  (forall w i, StronglySorted (ordered comp) (take i w) ->
               List.filter P (step w i) = List.filter P w) ->
  k + n <= length v ->
  StronglySorted (ordered comp) (take k v) ->
  List.filter P (fold_left step (seq k n) v) = List.filter P v.
Proof.
  intros Hperm Hordered Hstable. revert k v.
  induction n as [|n IH]; intros k v Hlen Hs; [done|].
  cbn [seq fold_left]. rewrite IH.
  - by apply Hstable.
  - rewrite (Permutation_length (Hperm v k)). lia.
  - apply Hordered; [lia|done].
Qed.

Lemma insertion_sort_stable v :
  List.filter P (insertion_sort comp 0 (length v) v) = List.filter P v.
Proof.
  unfold insertion_sort. destruct (0 =? length v) eqn:H0; [done|].
  apply Nat.eqb_neq in H0.
  apply (fold_left_stable (insertion_step comp)).
  - apply insertion_step_Permutation.
  - intros. by apply insertion_step_ordered.
  - intros. by apply insertion_step_stable.
  - lia.
  - destruct v as [|x [|y v]]; repeat constructor.
Qed.

(** On a vector of at most [_S_threshold] elements [std::sort] is the
    insertion sort alone, and that one is stable. *)
Lemma sort_short_stable v :
  length v <= _S_threshold -> List.filter P (sort comp v) = List.filter P v.
Proof.
  intros Hlen. unfold sort. destruct (0 =? length v) eqn:H0; [done|].
  rewrite introsort_loop_short by lia. unfold final_insertion_sort.
  apply Nat.ltb_ge in Hlen as Hshort. rewrite Nat.sub_0_r, Hshort.
  apply insertion_sort_stable.
Qed.
End SortStable.

(** X11.  On a list of at most 16 records the sequencer is stable: the
    records that have the same episode number come out in the order they
    had in the feed.  (With the permutation and the ascending order this
    fixes the result completely; from 17 records on the partitioning of
    [std::sort] can exchange such records.) *)
Theorem sort_keeps_feed_order (episodes : list EpisodeInfo) (n : Z) :
  (length episodes <= 16)%nat ->
  List.filter (fun e => (episodeNumber e =? n)%Z) (sort by_episodeNumber episodes)
  = List.filter (fun e => (episodeNumber e =? n)%Z) episodes.
Proof.
  intros Hlen.
  apply sort_short_stable;
    [exact by_episodeNumber_asym|exact by_episodeNumber_negtrans| |done].
  intros a b Ha Hb. unfold by_episodeNumber. lia.
Qed.

Lemma sort_keeps_feed_order_witness :
  map name
    (List.filter (fun e => (episodeNumber e =? 2)%Z)
       (sort by_episodeNumber episodes_with_repeat))
  = ["MAG 2"; "MAG 2 (rerun)"].
Proof.
  rewrite (sort_keeps_feed_order episodes_with_repeat 2).
  - reflexivity.
  - simpl. lia.
Defined.

(** ** A complete run *)

Lemma string_append_nil_r (s : string) : s ++ EmptyString = s.
Proof. induction s as [|c s IH]; [done|]. cbn. by rewrite IH. Qed.

Lemma string_append_assoc (s1 s2 s3 : string) : (s1 ++ s2) ++ s3 = s1 ++ s2 ++ s3.
Proof. induction s1 as [|c s1 IH]; [done|]. cbn. by rewrite IH. Qed.

Lemma concat_cons (chunk : string) (chunks : list string) :
  String.concat EmptyString (chunk :: chunks)
  = chunk ++ String.concat EmptyString chunks.
Proof. destruct chunks; cbn; [by rewrite string_append_nil_r|done]. Qed.

(** Called once for each piece of the body, [writeCallback] leaves in
    the buffer what it held before, followed by the pieces in the order of
    their arrival. *)
Lemma writeCallback_accumulates (chunks : list string) (output : string) :
  fold_left (fun output contents => fst (writeCallback contents output)) chunks output
  = output ++ String.concat EmptyString chunks.
Proof.
  revert output. induction chunks as [|chunk chunks IH]; intros output.
  { cbn. by rewrite string_append_nil_r. }
  cbn [fold_left]. rewrite IH, concat_cons. cbn [writeCallback fst].
  apply string_append_assoc.
Qed.

(** X12.  A run in which the feed is fetched, in any number of pieces,
    pugixml accepts the pieces put together and every captured number
    converts.  [main] ends with the exit status 0; after the transfer it
    announces every episode of the first series in ascending order of
    episode number, then every episode of the second series in ascending
    order, and attempts one download for each of them; the episodes are
    those of the document that is the concatenation of the pieces. *)
Theorem main_complete_run
    (load_string : string -> xml_parse_result) (world : World)
    (argv : list string) (h : list event) (url : string) (created : bool)
    (chunks : list string) (doc : xml_document) :
  let h1 := (h ++ [cout url; create_directories "Downloads" (inr created)])%list in
  let fetched :=
    (h1 ++ [curl_easy_init true;
            curl_easy_perform url to_callback chunks CURLE_OK;
            curl_easy_cleanup])%list in
  let first_series :=
    sort by_episodeNumber (omap (episode_of pattern) (items_of doc)) in
  let second_series :=
    sort by_episodeNumber (omap (episode_of pattern2) (items_of doc)) in
  argv !! 1%nat = Some url ->
  answer_create_directories world (h ++ [cout url]) "Downloads" = inr created ->
  answer_curl_easy_init world h1 = true ->
  answer_curl_easy_perform world (h1 ++ [curl_easy_init true]) url = (chunks, CURLE_OK) ->
  load_string (String.concat EmptyString chunks) = status_ok doc ->
  forallb (converts pattern) (items_of doc) = true ->
  forallb (converts pattern2) (items_of doc) = true ->
  exists added,
    main load_string world argv h = (inr 0%Z, (fetched ++ added)%list)
    /\ omap title_line added
       = map (fun e => "Title: " ++ name e) (first_series ++ second_series)%list
    /\ count attempts added = length (first_series ++ second_series)%list
    /\ ascending first_series /\ ascending second_series.
Proof.
  intros h1 fetched first_series second_series
    Hargv Hcreated Hinit Hperform Hdoc Hfirst Hsecond.
  rewrite (main_fetched load_string world argv h url created chunks
             Hargv Hcreated Hinit Hperform).
  fold h1 fetched. rewrite writeCallback_accumulates. cbn [append].
  assert (forall pattern_ h',
            forallb (converts pattern_) (items_of doc) = true ->
            parseRssFeed load_string pattern_ (String.concat EmptyString chunks) [] h'
            = (inr (omap (episode_of pattern_) (items_of doc)), h')) as Hparse.
  { intros pattern_ h' Hall. unfold parseRssFeed. rewrite Hdoc.
    fold (items_of doc).
    by rewrite parse_items_episode_of by by apply converts_spec. }
  rewrite prog_bind_run, Hparse by done. fold first_series.
  destruct (display_and_download_adds world first_series fetched)
    as (added1 & Hrun1 & _ & Htitles1 & Hcount1).
  rewrite prog_bind_run, Hrun1.
  rewrite prog_bind_run, Hparse by done. fold second_series.
  destruct (display_and_download_adds world second_series (fetched ++ added1)%list)
    as (added2 & Hrun2 & _ & Htitles2 & Hcount2).
  rewrite prog_bind_run, Hrun2.
  exists (added1 ++ added2)%list. repeat split.
  - by rewrite (assoc_L app).
  - by rewrite omap_app, map_app, Htitles1, Htitles2.
  - by rewrite count_app, length_app, Hcount1, Hcount2.
  - apply ascending_ordered, std_sort_ordered_by_number.
  - apply ascending_ordered, std_sort_ordered_by_number.
Qed.

Lemma main_complete_run_witness :
  exists added,
    main FeedText.read_document (serving feed_in_two_chunks)
      ["magnus"; "https://feed.example/rss"] []
    = (inr 0%Z,
       ([cout "https://feed.example/rss";
         create_directories "Downloads" (inr true);
         curl_easy_init true;
         curl_easy_perform "https://feed.example/rss" to_callback
           feed_in_two_chunks 0;
         curl_easy_cleanup] ++ added)%list)
    /\ omap title_line added
       = ["Title: MAG 1"; "Title: MAG 3"; "Title: The Magnus Protocol 1"]
    /\ count attempts added = 3%nat.
Proof.
  destruct (main_complete_run FeedText.read_document (serving feed_in_two_chunks)
              ["magnus"; "https://feed.example/rss"] []
              "https://feed.example/rss" true feed_in_two_chunks
              document_of_two_chunks)
    as (added & Hrun & Htitles & Hcount & _); try reflexivity.
  exists added. split; [exact Hrun|]. split.
  - rewrite Htitles. vm_compute. reflexivity.
  - rewrite Hcount. vm_compute. reflexivity.
Defined.

(** ** What the exit status tells *)

(** X13.  When [main] returns, the exit status is 0 or 1.  The status 1
    means that nothing was downloaded: no file was opened and no command
    was run.  The status 0 means that the feed was fetched: the run begins
    with the line of the URL, the directory, a curl handle, a transfer of
    the feed with the result [CURLE_OK] and the release of the handle. *)
Theorem main_exit_status_meaning
    (load_string : string -> xml_parse_result) (world : World)
    (argv : list string) (h : list event) (status : Z) :
  (main load_string world argv h).1 = inr status ->
  (status = 1%Z
   /\ exists added,
        (main load_string world argv h).2 = (h ++ added)%list
        /\ count writes_or_tags added = 0%nat)
  \/ (status = 0%Z
      /\ exists url created chunks added,
           argv !! 1%nat = Some url
           /\ (main load_string world argv h).2
              = (h ++ [cout url; create_directories "Downloads" (inr created);
                       curl_easy_init true;
                       curl_easy_perform url to_callback chunks CURLE_OK;
                       curl_easy_cleanup] ++ added)%list).
Proof.
  unfold main. destruct (argv !! 1%nat) as [url|].
  2:{ rewrite prog_bind_run, emit_run. intros [= <-]. left. split; [done|].
      by eexists. }
  rewrite prog_bind_run, emit_run, prog_bind_run, call_run.
  destruct (answer_create_directories world _ _) as [e|created].
  { by rewrite prog_bind_run. }
  rewrite prog_bind_run. cbn [mret prog_ret].
  rewrite prog_bind_run, call_run.
  destruct (answer_curl_easy_init world _); cbn [negb].
  2:{ rewrite prog_bind_run, emit_run, <- !(assoc_L app). intros [= <-].
      left. split; [done|]. by eexists. }
  rewrite prog_bind_run, call_run.
  destruct (answer_curl_easy_perform world _ _) as [chunks res]. cbn [fst snd].
  destruct (res =? CURLE_OK)%Z eqn:Hres; cbn [negb].
  2:{ rewrite prog_bind_run, emit_run, prog_bind_run, emit_run, <- !(assoc_L app).
      intros [= <-]. left. split; [done|]. by eexists. }
  apply Z.eqb_eq in Hres as ->.
  rewrite prog_bind_run, emit_run.
  set (rest := parseRssFeed load_string pattern _ [] ≫= _).
  assert (adds_balanced rest) as Hrest.
  { apply adds_balanced_bind; [apply parseRssFeed_adds_balanced|]. intros episodes.
    apply adds_balanced_bind; [apply display_and_download_adds_balanced|]. intros _.
    apply adds_balanced_bind; [apply parseRssFeed_adds_balanced|]. intros episodes2.
    apply adds_balanced_bind; [apply display_and_download_adds_balanced|]. intros _.
    apply adds_balanced_ret. }
  assert (forall h', (rest h').1 = inr status -> status = 0%Z) as Hstatus.
  { intros h'. unfold rest. rewrite prog_bind_run.
    destruct (parseRssFeed load_string pattern _ [] h') as [[e|episodes] h2];
      [done|].
    rewrite prog_bind_run.
    destruct (display_and_download_returns world (sort by_episodeNumber episodes) h2)
      as [h3 ->].
    rewrite prog_bind_run.
    destruct (parseRssFeed load_string pattern2 _ [] h3) as [[e|episodes2] h4];
      [done|].
    rewrite prog_bind_run.
    destruct (display_and_download_returns world (sort by_episodeNumber episodes2) h4)
      as [h5 ->].
    by intros [= <-]. }
  intros Hrun. right. split; [by eapply Hstatus|].
  match goal with |- context [rest ?h'] => destruct (Hrest h') as (added & -> & _) end.
  exists url, created, chunks, added. split; [done|].
  by rewrite <- !(assoc_L app).
Qed.

Lemma main_exit_status_meaning_witness :
  (1 = 1
   /\ exists added,
        (main FeedText.read_document offline ["magnus"] []).2 = ([] ++ added)%list
        /\ count writes_or_tags added = 0%nat)%Z
  \/ (1 = 0
      /\ exists url created chunks added,
           ["magnus"] !! 1%nat = Some url
           /\ (main FeedText.read_document offline ["magnus"] []).2
              = ([] ++ [cout url; create_directories "Downloads" (inr created);
                        curl_easy_init true;
                        curl_easy_perform url to_callback chunks CURLE_OK;
                        curl_easy_cleanup] ++ added)%list)%Z.
Proof.
  apply (main_exit_status_meaning FeedText.read_document offline ["magnus"] [] 1).
  reflexivity.
Defined.
